(** * music-rnn: the notation-to-sound core of static/js/playback.js

    A shallow embedding of the tokenizer/parser ([parseABCNotation]), the
    pitch mapper ([noteToMIDI]), the default sequence ([getDefaultNotes]) and
    the playback scheduler ([playAudio], [playNotes], [pauseAudio],
    [stopAudio]) of static/js/playback.js, and of the second copy of the
    parser and mapper that lives in static/js/generation.js.

    - JavaScript strings are sequences of UTF-16 code units: [list N].
    - JavaScript numbers are IEEE 754 binary64 values: [spec_float] with
      precision 53 and maximal exponent 1024, with the Standard Library's
      executable specification of the operations (round to nearest even).
      Pitches and indices, which the code only ever holds as small integers,
      are [Z] and [nat].
    - The scheduler's module-level variables, the transport buttons, the
      pending asynchronous continuations and the observable calls (status
      sink, error banner, synthesizer) form an explicit [State].  The
      [async] functions run from one [await] to the next without
      interruption; a parked activation is resumed by an explicit event.
    - The collaborators are taken to return normally: [Tone.start()]
      resolves, the elements looked up in the document exist, and the
      synthesizer, when it was constructed, accepts every call.  A
      synthesizer that was not constructed ([synth] is [null]) is part of
      the state. *)

From Stdlib Require Import Ascii String.
From Stdlib Require Import ZArith NArith PArith List Bool Lia Arith Permutation.
From Stdlib Require Import SpecFloat.
Import ListNotations.

(* ================================================================== *)
(** * JavaScript numbers *)
(* ================================================================== *)

Module JSNumber.

Definition prec : Z := 53.
Definition emax : Z := 1024.

Definition number : Type := spec_float.

(** The number denoted by an integer literal or held by an integer
    variable (rounded to binary64 when it does not fit, as JS does). *)
Definition of_Z (z : Z) : number := binary_normalize prec emax z 0 false.

Definition of_nat (n : nat) : number := of_Z (Z.of_nat n).

Definition zero : number := S754_zero false.
Definition one : number := of_Z 1.
Definition infinity : number := S754_infinity false.
Definition NaN : number := S754_nan.

(** [x / y] and [x * y]. *)
Definition div (x y : number) : number := SFdiv prec emax x y.
Definition mul (x y : number) : number := SFmul prec emax x y.

(** [x < y], false as soon as one side is NaN. *)
Definition ltb (x y : number) : bool := SFltb x y.

Definition isFinite (x : number) : bool :=
  match x with
  | S754_zero _ | S754_finite _ _ _ => true
  | S754_infinity _ | S754_nan => false
  end.

(** [Math.round(x)]: the integer closest to [x], ties towards +Infinity;
    NaN, the infinities, the zeros and integral values are returned as
    they are.  For a fractional [x = ±m·2^e] (so [e < 0]) the result is
    [floor(x + 1/2)], computed exactly on integers; a result of zero
    keeps the sign of [x]. *)
Definition Math_round (x : number) : number :=
  match x with
  | S754_finite s m e =>
      if (0 <=? e)%Z then x
      else
        let den := Z.pow 2 (Z.opp e) in
        let num := if s then Z.opp (Zpos m) else Zpos m in
        let n := Z.div (2 * num + den) (2 * den) in
        binary_normalize prec emax n 0 s
  | _ => x
  end.

End JSNumber.

Abbreviation number := JSNumber.number.

(* ================================================================== *)
(** * JavaScript strings *)
(* ================================================================== *)

Module JSString.

(** A UTF-16 code unit. *)
Definition char : Type := N.
Definition jsstring : Type := list char.

(** ASCII literals. *)
Fixpoint str (s : string) : jsstring :=
  match s with
  | EmptyString => []
  | String a s' => N_of_ascii a :: str s'
  end.

Definition LF : char := 10%N.

(** [s.split('\n')]: the pieces between line feeds; never empty. *)
Fixpoint split (s : jsstring) : list jsstring :=
  match s with
  | [] => [[]]
  | c :: tl =>
      if (c =? LF)%N then [] :: split tl
      else match split tl with
           | l :: ls => (c :: l) :: ls
           | [] => [[c]]
           end
  end.

(** [lines.join('\n')]. *)
Fixpoint join (ls : list jsstring) : jsstring :=
  match ls with
  | [] => []
  | [l] => l
  | l :: ls' => l ++ LF :: join ls'
  end.

(** White space and line terminators, the code units [trim] strips. *)
Definition isWhiteSpace (c : char) : bool :=
  ((9 <=? c) && (c <=? 13) || (c =? 32) || (c =? 160) || (c =? 5760)
   || (8192 <=? c) && (c <=? 8202) || (c =? 8232) || (c =? 8233)
   || (c =? 8239) || (c =? 8287) || (c =? 12288) || (c =? 65279))%N.

(** [s.trim() === ''] *)
Definition trimIsEmpty (s : jsstring) : bool := forallb isWhiteSpace s.

Definition eqb (s t : jsstring) : bool :=
  if list_eq_dec N.eq_dec s t then true else false.

(** [(s.match(re) || []).length] for a global regex of one character. *)
Definition countChar (c : char) (s : jsstring) : nat :=
  length (filter (N.eqb c) s).

(** [s.includes(c)] for a one-character string [c]. *)
Definition includes (c : char) (s : jsstring) : bool :=
  existsb (N.eqb c) s.

End JSString.

Abbreviation char := JSString.char.
Abbreviation jsstring := JSString.jsstring.
Abbreviation str := JSString.str.

(* ================================================================== *)
(** * The regular expressions of the parser, as character classes *)
(* ================================================================== *)

Module Regex.

Local Open Scope N_scope.

Definition QUOTE : char := 34.       (* double quote *)
Definition SPACE : char := 32.       (* space *)
Definition SLASH : char := 47.       (* slash *)
Definition COLON : char := 58.       (* colon *)
Definition APOSTROPHE : char := 39.  (* apostrophe *)
Definition COMMA : char := 44.       (* comma *)
Definition LOWER_Z : char := 122.    (* the letter z *)

(** [/[A-Z]/] *)
Definition isUpper (c : char) : bool := (65 <=? c) && (c <=? 90).

(** [/^[A-Z]:/] *)
Definition isHeader (line : jsstring) : bool :=
  match line with
  | c0 :: c1 :: _ => isUpper c0 && (c1 =? COLON)
  | _ => false
  end.

(** [/[|:\[\]]/] *)
Definition isBarSymbol (c : char) : bool :=
  (c =? 124) || (c =? COLON) || (c =? 91) || (c =? 93).

(** [/[{}~!+.]/] *)
Definition isDecoration (c : char) : bool :=
  (c =? 123) || (c =? 125) || (c =? 126) || (c =? 33) || (c =? 43) || (c =? 46).

(** [/[A-Ga-g]/] *)
Definition isNoteLetter (c : char) : bool :=
  (65 <=? c) && (c <=? 71) || (97 <=? c) && (c <=? 103).

(** [/[\^_=]/] *)
Definition isAccidental (c : char) : bool :=
  (c =? 94) || (c =? 95) || (c =? 61).

(** [/[',]/] *)
Definition isOctaveMark (c : char) : bool :=
  (c =? APOSTROPHE) || (c =? COMMA).

(** [/\d/] *)
Definition isDigit (c : char) : bool := (48 <=? c) && (c <=? 57).

(** [parseInt(c)] for a one-character string [c] that matches [/\d/]. *)
Definition parseInt (c : char) : number := JSNumber.of_Z (Z.of_N c - 48).

End Regex.

(* ================================================================== *)
(** * Note events *)
(* ================================================================== *)

(** The object literal [{ pitch, duration, rest }]. *)
Record NoteEvent : Type := mkNote {
  pitch : Z;
  duration : number;
  rest : bool
}.

(** [obj[key]] on an object literal with the given own entries: [None] is
    [undefined]. *)
Fixpoint lookup (m : list (jsstring * Z)) (key : jsstring) : option Z :=
  match m with
  | [] => None
  | (k, v) :: m' => if JSString.eqb k key then Some v else lookup m' key
  end.

(** [notes.push(ev)], when an event is pushed at all. *)
Definition push (notes : list NoteEvent) (ev : option NoteEvent) : list NoteEvent :=
  match ev with
  | Some e => notes ++ [e]
  | None => notes
  end.

(* ================================================================== *)
(** * static/js/playback.js: parser, pitch mapper and scheduler *)
(* ================================================================== *)

Module Playback.

Import Regex.
Local Open Scope Z_scope.

(** [getDefaultNotes()] *)
Definition getDefaultNotes : list NoteEvent :=
  [ mkNote 64 (JSNumber.of_Z 1) false;
    mkNote 67 (JSNumber.of_Z 1) false;
    mkNote 69 (JSNumber.of_Z 1) false;
    mkNote 71 (JSNumber.of_Z 1) false;
    mkNote 76 (JSNumber.of_Z 1) false;
    mkNote 79 (JSNumber.of_Z 1) false;
    mkNote 81 (JSNumber.of_Z 1) false;
    mkNote 83 (JSNumber.of_Z 1) false ].

(** The object literal [noteMap]: its thirteen own keys, all one
    character long. *)
Definition noteMap : list (jsstring * Z) :=
  [ (str "D", 62); (str "E", 64); (str "F", 65); (str "G", 67);
    (str "A", 69); (str "B", 71);
    (str "c", 72); (str "d", 74); (str "e", 76); (str "f", 77);
    (str "g", 79); (str "a", 81); (str "b", 83) ]%Z.

(** [noteToMIDI(note)].  The argument is a token as the parser builds
    it: one base character followed by octave marks.  ([noteMap] also
    inherits the members of [Object.prototype]; their names are all longer
    than one character, so they are never hit by such a token and are left
    out of [noteMap] here.) *)
Definition noteToMIDI (note : jsstring) : Z :=
  let baseNote := filter (fun c => negb (isOctaveMark c)) note in
  let midi := match lookup noteMap baseNote with
              | Some v => v     (* every entry is non-zero, hence truthy *)
              | None => 64
              end in
  let midi := if JSString.includes APOSTROPHE note
              then midi + Z.of_nat (JSString.countChar APOSTROPHE note) * 12
              else midi in
  let midi := if JSString.includes COMMA note
              then midi - Z.of_nat (JSString.countChar COMMA note) * 12
              else midi in
  Z.max 0 (Z.min 127 midi).

(** The inner [while (i < line.length && line[i] !== QUOTE) i++], on the
    part of the line from index [i] on. *)
Fixpoint skipToQuote (sfx : jsstring) : jsstring :=
  match sfx with
  | [] => []
  | c :: after => if (c =? QUOTE)%N then sfx else skipToQuote after
  end.

(** [while (i < line.length && /[\^_=]/.test(line[i])) i++] *)
Fixpoint skipAccidentals (sfx : jsstring) : jsstring :=
  match sfx with
  | [] => []
  | c :: after => if isAccidental c then skipAccidentals after else sfx
  end.

(** [while (i < line.length && /[',]/.test(line[i])) { note += line[i]; i++ }]:
    the marks appended to [note], and what is left of the line. *)
Fixpoint takeOctaves (sfx : jsstring) : jsstring * jsstring :=
  match sfx with
  | [] => ([], [])
  | c :: after =>
      if isOctaveMark c
      then let (marks, sfx') := takeOctaves after in (c :: marks, sfx')
      else ([], sfx)
  end.

(** The duration block, which the note branch (lines 113-126) and the rest
    branch (lines 139-153) both spell out with the same statements:
    [let duration = 1]; one digit, if present, replaces it; a ['/'], if
    present, divides it by the next digit or else by 2. *)
Definition parseDuration (sfx : jsstring) : number * jsstring :=
  let duration := JSNumber.of_Z 1 in
  let (duration, sfx) :=
    match sfx with
    | c :: after => if isDigit c then (parseInt c, after) else (duration, sfx)
    | [] => (duration, sfx)
    end in
  match sfx with
  | c :: after =>
      if (c =? SLASH)%N then
        match after with
        | d :: after' =>
            if isDigit d then (JSNumber.div duration (parseInt d), after')
            else (JSNumber.div duration (JSNumber.of_Z 2), after)
        | [] => (JSNumber.div duration (JSNumber.of_Z 2), after)
        end
      else (duration, sfx)
  | [] => (duration, sfx)
  end.

(** One turn of [while (i < line.length)] with [char = line[i] = c] and
    [after] the line after it: the event pushed on [notes], if any, and the
    part of the line from the new [i] on. *)
Definition scanStep (c : char) (after : jsstring) : option NoteEvent * jsstring :=
  if (c =? QUOTE)%N then (None, List.tl (skipToQuote after))
  else if isBarSymbol c then (None, after)
  else if (c =? SPACE)%N then (None, after)
  else if isDecoration c then (None, after)
  else if isNoteLetter c then
    let sfx := skipAccidentals after in
    let (marks, sfx) := takeOctaves sfx in
    let (duration, sfx) := parseDuration sfx in
    (Some (mkNote (noteToMIDI (c :: marks)) duration false), sfx)
  else if (c =? LOWER_Z)%N then
    let (duration, sfx) := parseDuration after in
    (Some (mkNote 0 duration true), sfx)
  else (None, after).

(** The loop [while (i < line.length) ...] from the current position on;
    every turn advances [i], so [length sfx] turns are enough. *)
Fixpoint scanLoop (fuel : nat) (sfx : jsstring) (notes : list NoteEvent)
  : list NoteEvent :=
  match fuel, sfx with
  | S fuel', c :: after =>
      let (ev, sfx') := scanStep c after in
      scanLoop fuel' sfx' (push notes ev)
  | _, _ => notes
  end.

(** The body of [for (const line of lines)]. *)
Definition parseLine (notes : list NoteEvent) (line : jsstring) : list NoteEvent :=
  if isHeader line then notes
  else if JSString.trimIsEmpty line then notes
  else scanLoop (length line) line notes.

(** [parseABCNotation(notation)] for a string [notation].  Nothing in the
    [try] block can throw on a string, so the [catch] branch, which also
    returns [getDefaultNotes()], is never taken. *)
Definition parseABCNotation (notation : jsstring) : list NoteEvent :=
  let lines := JSString.split notation in
  let notes := fold_left parseLine lines [] in
  if (length notes =? 0)%nat then getDefaultNotes else notes.


(* ---------------------------------------------------------------- *)
(** ** The playback scheduler *)
(* ---------------------------------------------------------------- *)

(** The strings handed to [updatePlaybackStatus]. *)
Inductive StatusMessage : Type :=
| Playing                          (* Playing... *)
| Progress (percent : number)      (* Playing... <percent>% *)
| Finished
| Paused
| Stopped.

(** The strings handed to [showError]. *)
Inductive ErrorMessage : Type :=
| NoMusicToPlay                    (* No music to play *)
| NoValidNotes                     (* No valid notes found in notation *)
| PlaybackFailed.                  (* Playback failed: <message> *)

(** The calls the scheduler makes on its collaborators, in order.
    [triggerAttackRelease p d] stands for
    [synth.triggerAttackRelease(440 * Math.pow(2, (p - 69) / 12), d)]. *)
Inductive Call : Type :=
| updatePlaybackStatus (s : StatusMessage)
| showError (e : ErrorMessage)
| triggerAttackRelease (pitch : Z) (noteDuration : number)
| triggerRelease.

(** An [async] activation parked at an [await]. *)
Inductive Task : Type :=
| AwaitToneStart (notation : jsstring)  (* playAudio at [await Tone.start()] *)
| AwaitTimeout (totalNotes : nat).      (* playNotes at [await new Promise(setTimeout)] *)

(** The [disabled] flags of the three transport buttons. *)
Record Buttons : Type := mkButtons {
  playBtn : bool;
  pauseBtn : bool;
  stopBtn : bool
}.

Record State : Type := mkState {
  synthReady : bool;          (* [synth] was constructed: it is not [null] *)
  contextSuspended : bool;    (* [Tone.context.state === 'suspended'] *)
  isPlaying : bool;
  currentNotes : list NoteEvent;
  currentNoteIndex : nat;
  buttons : Buttons;
  pending : list Task;
  calls : list Call
}.

Definition set_isPlaying (b : bool) (st : State) : State :=
  mkState (synthReady st) (contextSuspended st) b (currentNotes st)
          (currentNoteIndex st) (buttons st) (pending st) (calls st).

Definition set_currentNotes (ns : list NoteEvent) (st : State) : State :=
  mkState (synthReady st) (contextSuspended st) (isPlaying st) ns
          (currentNoteIndex st) (buttons st) (pending st) (calls st).

Definition set_currentNoteIndex (i : nat) (st : State) : State :=
  mkState (synthReady st) (contextSuspended st) (isPlaying st) (currentNotes st)
          i (buttons st) (pending st) (calls st).

Definition set_buttons (b : Buttons) (st : State) : State :=
  mkState (synthReady st) (contextSuspended st) (isPlaying st) (currentNotes st)
          (currentNoteIndex st) b (pending st) (calls st).

Definition set_contextSuspended (b : bool) (st : State) : State :=
  mkState (synthReady st) b (isPlaying st) (currentNotes st)
          (currentNoteIndex st) (buttons st) (pending st) (calls st).

Definition set_pending (ts : list Task) (st : State) : State :=
  mkState (synthReady st) (contextSuspended st) (isPlaying st) (currentNotes st)
          (currentNoteIndex st) (buttons st) ts (calls st).

Definition call (c : Call) (st : State) : State :=
  mkState (synthReady st) (contextSuspended st) (isPlaying st) (currentNotes st)
          (currentNoteIndex st) (buttons st) (pending st) (calls st ++ [c]).

Definition suspend (t : Task) (st : State) : State :=
  set_pending (pending st ++ [t]) st.

(** The text the page shows before anything was generated: a musical-score
    emoji (a surrogate pair), then
    [ No music generated yet. Click QUOTE Generate Music QUOTE to start.] *)
Definition placeholder : jsstring :=
  ([55356; 57276; 32]%N ++ str "No music generated yet. Click ")
    ++ QUOTE :: str "Generate Music" ++ QUOTE :: str " to start.".

(** [const baseDuration = 0.4]: the binary64 value nearest to 4/10. *)
Definition baseDuration : number := S754_finite false 7205759403792794 (-54).

(** [Math.round(((currentNoteIndex + 1) / totalNotes) * 100)] *)
Definition progressOf (currentNoteIndex totalNotes : nat) : number :=
  JSNumber.Math_round
    (JSNumber.mul
       (JSNumber.div (JSNumber.of_nat (currentNoteIndex + 1))
                     (JSNumber.of_nat totalNotes))
       (JSNumber.of_Z 100)).

(** The [catch] block of [playAudio]; an exception thrown inside
    [playNotes] rejects the promise [playAudio] awaits and lands here. *)
Definition catchBlock (st : State) : State :=
  set_buttons (mkButtons false true true)
    (set_isPlaying false (call (showError PlaybackFailed) st)).

(** [playNotes] from the test of its [while] loop up to the next [await]
    (or to its return).  [totalNotes] is the loop's own constant; the
    other variables are the shared ones.  Reading [note.duration] throws
    when [currentNotes[currentNoteIndex]] is [undefined], and so does
    [synth.triggerAttackRelease] when [synth] is [null]. *)
Definition loopTurn (totalNotes : nat) (st : State) : State :=
  if (currentNoteIndex st <? totalNotes)%nat && isPlaying st then
    match nth_error (currentNotes st) (currentNoteIndex st) with
    | None => catchBlock st
    | Some note =>
        let noteDuration := JSNumber.mul baseDuration (duration note) in
        let report (st : State) : State :=
          suspend (AwaitTimeout totalNotes)
            (call (updatePlaybackStatus
                     (Progress (progressOf (currentNoteIndex st) totalNotes))) st) in
        if negb (rest note) && (0 <? pitch note) then
          if synthReady st
          then report (call (triggerAttackRelease (pitch note) noteDuration) st)
          else catchBlock st
        else report st
    end
  else if isPlaying st then
    set_buttons (mkButtons false true true)
      (call (updatePlaybackStatus Finished) (set_isPlaying false st))
  else st.

(** [playNotes()]: fix [totalNotes], then run to the first [await]. *)
Definition playNotes (st : State) : State :=
  loopTurn (length (currentNotes st)) st.

(** [playAudio] after the check of the audio context. *)
Definition playAudio_start (notation : jsstring) (st : State) : State :=
  let st := set_isPlaying true st in
  let st := call (updatePlaybackStatus Playing) st in
  let st := set_buttons (mkButtons true false false) st in
  let st := set_currentNotes (parseABCNotation notation) st in
  if (length (currentNotes st) =? 0)%nat then
    set_buttons (mkButtons false true true)
      (set_isPlaying false (call (showError NoValidNotes) st))
  else
    playNotes (set_currentNoteIndex 0 st).

(** [playAudio()], where [notation] is what
    [document.getElementById('musicCode').textContent] holds ([None] for
    [null]), up to its first [await] or its return. *)
Definition playAudio (notation : option jsstring) (st : State) : State :=
  match notation with
  | None => call (showError NoMusicToPlay) st
  | Some text =>
      if (length text =? 0)%nat || JSString.eqb text placeholder
      then call (showError NoMusicToPlay) st
      else if contextSuspended st
           then suspend (AwaitToneStart text) st
           else playAudio_start text st
  end.

(** [pauseAudio()]; with [synth] null the call [synth.triggerRelease()]
    throws and the statements after it are not reached. *)
Definition pauseAudio (st : State) : State :=
  let st := set_isPlaying false st in
  if synthReady st then
    set_buttons (mkButtons false true false)
      (call (updatePlaybackStatus Paused) (call triggerRelease st))
  else st.

(** [stopAudio()] *)
Definition stopAudio (st : State) : State :=
  let st := set_isPlaying false st in
  if synthReady st then
    set_buttons (mkButtons false true true)
      (call (updatePlaybackStatus Stopped)
         (set_currentNoteIndex 0 (call triggerRelease st)))
  else st.

(** What can happen next: a click on a transport button (the listeners of
    [DOMContentLoaded]; a disabled button dispatches no click), or the
    event loop resuming the [i]-th parked activation. *)
Inductive Event : Type :=
| ClickPlay (notation : option jsstring)
| ClickPause
| ClickStop
| Resume (i : nat).

Fixpoint removeNth {A : Type} (i : nat) (l : list A) : list A :=
  match i, l with
  | _, [] => []
  | O, _ :: l' => l'
  | S i', x :: l' => x :: removeNth i' l'
  end.

Definition resume (t : Task) (st : State) : State :=
  match t with
  | AwaitToneStart notation =>
      playAudio_start notation (set_contextSuspended false st)
  | AwaitTimeout totalNotes =>
      loopTurn totalNotes (set_currentNoteIndex (currentNoteIndex st + 1) st)
  end.

Definition step (st : State) (e : Event) : State :=
  match e with
  | ClickPlay notation => if playBtn (buttons st) then st else playAudio notation st
  | ClickPause => if pauseBtn (buttons st) then st else pauseAudio st
  | ClickStop => if stopBtn (buttons st) then st else stopAudio st
  | Resume i =>
      match nth_error (pending st) i with
      | Some t => resume t (set_pending (removeNth i (pending st)) st)
      | None => st
      end
  end.

Definition run (st : State) (es : list Event) : State := fold_left step es st.

(** The percentages reported to the status sink, in order. *)
Fixpoint progressUpdates (cs : list Call) : list number :=
  match cs with
  | [] => []
  | updatePlaybackStatus (Progress p) :: cs' => p :: progressUpdates cs'
  | _ :: cs' => progressUpdates cs'
  end.

(** The notes sent to the synthesizer, in order. *)
Fixpoint triggers (cs : list Call) : list Z :=
  match cs with
  | [] => []
  | triggerAttackRelease p _ :: cs' => p :: triggers cs'
  | _ :: cs' => triggers cs'
  end.

(** A freshly loaded page on which the synthesizer was constructed: nothing
    playing, only the play button enabled, the audio context still
    suspended (browsers start it on the first user gesture). *)
Definition freshPage : State :=
  mkState true true false [] 0 (mkButtons false true true) [] [].

End Playback.

(* ================================================================== *)
(** * static/js/generation.js: its own copy of the parser and mapper *)
(* ================================================================== *)

Module Generation.

Import Regex.
Local Open Scope Z_scope.

(** [getDefaultNotes()], generation.js lines 690-701. *)
Definition getDefaultNotes : list NoteEvent :=
  [ mkNote 64 (JSNumber.of_Z 1) false; mkNote 67 (JSNumber.of_Z 1) false;
    mkNote 69 (JSNumber.of_Z 1) false; mkNote 71 (JSNumber.of_Z 1) false;
    mkNote 76 (JSNumber.of_Z 1) false; mkNote 79 (JSNumber.of_Z 1) false;
    mkNote 81 (JSNumber.of_Z 1) false; mkNote 83 (JSNumber.of_Z 1) false ].

(** [noteMap], generation.js lines 666-669. *)
Definition noteMap : list (jsstring * Z) :=
  [ (str "D", 62); (str "E", 64); (str "F", 65); (str "G", 67); (str "A", 69);
    (str "B", 71); (str "c", 72); (str "d", 74); (str "e", 76); (str "f", 77);
    (str "g", 79); (str "a", 81); (str "b", 83) ].

(** [noteToMIDI(note)], generation.js lines 665-685. *)
Definition noteToMIDI (note : jsstring) : Z :=
  let baseNote := filter (fun c => negb (isOctaveMark c)) note in
  let midi := match lookup noteMap baseNote with
              | Some v => v
              | None => 64
              end in
  let midi := if JSString.includes APOSTROPHE note
              then midi + Z.of_nat (JSString.countChar APOSTROPHE note) * 12
              else midi in
  let midi := if JSString.includes COMMA note
              then midi - Z.of_nat (JSString.countChar COMMA note) * 12
              else midi in
  Z.max 0 (Z.min 127 midi).

(** Lines 561-563. *)
Fixpoint skipToQuote (sfx : jsstring) : jsstring :=
  match sfx with
  | [] => []
  | c :: after => if (c =? QUOTE)%N then sfx else skipToQuote after
  end.

(** Lines 592-594. *)
Fixpoint skipAccidentals (sfx : jsstring) : jsstring :=
  match sfx with
  | [] => []
  | c :: after => if isAccidental c then skipAccidentals after else sfx
  end.

(** Lines 597-600. *)
Fixpoint takeOctaves (sfx : jsstring) : jsstring * jsstring :=
  match sfx with
  | [] => ([], [])
  | c :: after =>
      if isOctaveMark c
      then let (marks, sfx') := takeOctaves after in (c :: marks, sfx')
      else ([], sfx)
  end.

(** Lines 603-616, and again lines 627-641. *)
Definition parseDuration (sfx : jsstring) : number * jsstring :=
  let duration := JSNumber.of_Z 1 in
  let (duration, sfx) :=
    match sfx with
    | c :: after => if isDigit c then (parseInt c, after) else (duration, sfx)
    | [] => (duration, sfx)
    end in
  match sfx with
  | c :: after =>
      if (c =? SLASH)%N then
        match after with
        | d :: after' =>
            if isDigit d then (JSNumber.div duration (parseInt d), after')
            else (JSNumber.div duration (JSNumber.of_Z 2), after)
        | [] => (JSNumber.div duration (JSNumber.of_Z 2), after)
        end
      else (duration, sfx)
  | [] => (duration, sfx)
  end.

(** One turn of the loop of lines 555-650. *)
Definition scanStep (c : char) (after : jsstring) : option NoteEvent * jsstring :=
  if (c =? QUOTE)%N then (None, List.tl (skipToQuote after))
  else if isBarSymbol c then (None, after)
  else if (c =? SPACE)%N then (None, after)
  else if isDecoration c then (None, after)
  else if isNoteLetter c then
    let sfx := skipAccidentals after in
    let (marks, sfx) := takeOctaves sfx in
    let (duration, sfx) := parseDuration sfx in
    (Some (mkNote (noteToMIDI (c :: marks)) duration false), sfx)
  else if (c =? LOWER_Z)%N then
    let (duration, sfx) := parseDuration after in
    (Some (mkNote 0 duration true), sfx)
  else (None, after).

Fixpoint scanLoop (fuel : nat) (sfx : jsstring) (notes : list NoteEvent)
  : list NoteEvent :=
  match fuel, sfx with
  | S fuel', c :: after =>
      let (ev, sfx') := scanStep c after in
      scanLoop fuel' sfx' (push notes ev)
  | _, _ => notes
  end.

(** The body of the loop of lines 548-651. *)
Definition parseLine (notes : list NoteEvent) (line : jsstring) : list NoteEvent :=
  if isHeader line then notes
  else if JSString.trimIsEmpty line then notes
  else scanLoop (length line) line notes.

(** [parseABCNotation(notation)], generation.js lines 540-660; it ends in
    [return notes.length > 0 ? notes : getDefaultNotes()]. *)
Definition parseABCNotation (notation : jsstring) : list NoteEvent :=
  let lines := JSString.split notation in
  let notes := fold_left parseLine lines [] in
  if (0 <? length notes)%nat then notes else getDefaultNotes.

End Generation.

(* ================================================================== *)
(** * Notions used to state the properties *)
(* ================================================================== *)

Module Spec.

Import Regex.
Local Open Scope Z_scope.

(** The pitch table as the specification prints it; any other base letter
    takes the value of E. *)
Definition tableValue (base : char) : Z :=
  if (base =? 68)%N then 62        (* D *)
  else if (base =? 69)%N then 64   (* E *)
  else if (base =? 70)%N then 65   (* F *)
  else if (base =? 71)%N then 67   (* G *)
  else if (base =? 65)%N then 69   (* A *)
  else if (base =? 66)%N then 71   (* B *)
  else if (base =? 99)%N then 72   (* c *)
  else if (base =? 100)%N then 74  (* d *)
  else if (base =? 101)%N then 76  (* e *)
  else if (base =? 102)%N then 77  (* f *)
  else if (base =? 103)%N then 79  (* g *)
  else if (base =? 97)%N then 81   (* a *)
  else if (base =? 98)%N then 83   (* b *)
  else 64.

Definition clamp (lo hi x : Z) : Z :=
  if x <? lo then lo else if hi <? x then hi else x.

(** The table value, plus 12 per apostrophe, minus 12 per comma, clamped
    into 0..127. *)
Definition toPitch (base : char) (marks : jsstring) : Z :=
  clamp 0 127
    (tableValue base
     + 12 * Z.of_nat (count_occ N.eq_dec marks APOSTROPHE)
     - 12 * Z.of_nat (count_occ N.eq_dec marks COMMA)).

(** A positive rational: finite and strictly greater than zero. *)
Definition positiveFinite (d : number) : bool :=
  JSNumber.isFinite d && JSNumber.ltb JSNumber.zero d.

(** Not below zero (zero, +Infinity and NaN pass). *)
Definition notNegative (d : number) : bool :=
  negb (JSNumber.ltb d JSNumber.zero).

Definition digitValue (c : char) : Z := Z.of_N c - 48.

(** The duration rule with one digit on each side of the slash: the
    duration, and what is left of the line. *)
Definition durationRule (sfx : jsstring) : number * jsstring :=
  match sfx with
  | n :: sfx1 =>
      if isDigit n then
        match sfx1 with
        | s :: sfx2 =>
            if (s =? SLASH)%N then
              match sfx2 with
              | d :: sfx3 =>
                  if isDigit d
                  then (JSNumber.div (JSNumber.of_Z (digitValue n))
                                     (JSNumber.of_Z (digitValue d)), sfx3)
                  else (JSNumber.div (JSNumber.of_Z (digitValue n))
                                     (JSNumber.of_Z 2), sfx2)
              | [] => (JSNumber.div (JSNumber.of_Z (digitValue n))
                                    (JSNumber.of_Z 2), sfx2)
              end
            else (JSNumber.of_Z (digitValue n), sfx1)
        | [] => (JSNumber.of_Z (digitValue n), sfx1)
        end
      else if (n =? SLASH)%N then
        match sfx1 with
        | d :: sfx2 =>
            if isDigit d
            then (JSNumber.div (JSNumber.of_Z 1) (JSNumber.of_Z (digitValue d)), sfx2)
            else (JSNumber.div (JSNumber.of_Z 1) (JSNumber.of_Z 2), sfx1)
        | [] => (JSNumber.div (JSNumber.of_Z 1) (JSNumber.of_Z 2), sfx1)
        end
      else (JSNumber.of_Z 1, sfx)
  | [] => (JSNumber.of_Z 1, sfx)
  end.

(** Strictly increasing, each element below the next. *)
Fixpoint strictlyIncreasing (l : list number) : bool :=
  match l with
  | x :: ((y :: _) as l') => JSNumber.ltb x y && strictlyIncreasing l'
  | _ => true
  end.

(** The values [i] takes at the head of the scanning loop of a line, that
    is the positions at which the dispatch on [line[i]] happens. *)
Fixpoint loopIndices (fuel : nat) (len : nat) (sfx : jsstring) : list nat :=
  match fuel, sfx with
  | S fuel', c :: after =>
      (len - length sfx)%nat
        :: loopIndices fuel' len (snd (Playback.scanStep c after))
  | _, _ => []
  end.

(** The scanner dispatches on the character at index [i] of [line]. *)
Definition dispatchesAt (line : jsstring) (i : nat) : Prop :=
  In i (loopIndices (length line) (length line) line).

(** [s] is what is left of [l] from some index on. *)
Definition suffix (s l : jsstring) : Prop := exists p, l = p ++ s.

(** The percentage of the [k]-th update of a run over [N] events:
    round(k / N * 100), in the arithmetic of JavaScript numbers. *)
Definition percentage (k N : nat) : number :=
  JSNumber.Math_round
    (JSNumber.mul (JSNumber.div (JSNumber.of_nat k) (JSNumber.of_nat N))
                  (JSNumber.of_Z 100)).

(** The run of all percentages is strictly increasing for every length
    up to [bound]. *)
Definition increasingUpTo (bound : nat) : bool :=
  forallb (fun N => strictlyIncreasing (map (fun k => percentage k N) (seq 1 N)))
          (seq 0 (S bound)).

(** The timer of the only parked loop fires [n] times in a row. *)
Definition timersFire (n : nat) : list Playback.Event :=
  repeat (Playback.Resume 0) n.

End Spec.

(* ================================================================== *)
(** * static/js/generation.js: its own copy of the scheduler *)
(* ================================================================== *)

Module GenerationPlayer.

Import Regex.
Local Open Scope Z_scope.

(** The [catch] block of [playAudio], generation.js lines 743-750. *)
Definition catchBlock (st : Playback.State) : Playback.State :=
  Playback.set_buttons (Playback.mkButtons false true true)
    (Playback.set_isPlaying false
       (Playback.call (Playback.showError Playback.PlaybackFailed) st)).

(** [const baseDuration = 0.4], generation.js line 757. *)
Definition baseDuration : number := S754_finite false 7205759403792794 (-54).

(** [playNotes], generation.js lines 756-786, from the test of its loop to
    the next [await] or to its return. *)
Definition loopTurn (totalNotes : nat) (st : Playback.State) : Playback.State :=
  if (Playback.currentNoteIndex st <? totalNotes)%nat && Playback.isPlaying st then
    match nth_error (Playback.currentNotes st) (Playback.currentNoteIndex st) with
    | None => catchBlock st
    | Some note =>
        let noteDuration := JSNumber.mul baseDuration (duration note) in
        let report (st : Playback.State) : Playback.State :=
          Playback.suspend (Playback.AwaitTimeout totalNotes)
            (Playback.call
               (Playback.updatePlaybackStatus
                  (Playback.Progress
                     (JSNumber.Math_round
                        (JSNumber.mul
                           (JSNumber.div
                              (JSNumber.of_nat (Playback.currentNoteIndex st + 1))
                              (JSNumber.of_nat totalNotes))
                           (JSNumber.of_Z 100)))))
               st) in
        if negb (rest note) && (0 <? pitch note) then
          if Playback.synthReady st
          then report (Playback.call
                         (Playback.triggerAttackRelease (pitch note) noteDuration) st)
          else catchBlock st
        else report st
    end
  else if Playback.isPlaying st then
    Playback.set_buttons (Playback.mkButtons false true true)
      (Playback.call (Playback.updatePlaybackStatus Playback.Finished)
         (Playback.set_isPlaying false st))
  else st.

Definition playNotes (st : Playback.State) : Playback.State :=
  loopTurn (length (Playback.currentNotes st)) st.

(** [playAudio], generation.js lines 706-751, after the check of the audio
    context; it parses with the parser of its own file. *)
Definition playAudio_start (notation : jsstring) (st : Playback.State)
  : Playback.State :=
  let st := Playback.set_isPlaying true st in
  let st := Playback.call (Playback.updatePlaybackStatus Playback.Playing) st in
  let st := Playback.set_buttons (Playback.mkButtons true false false) st in
  let st := Playback.set_currentNotes (Generation.parseABCNotation notation) st in
  if (length (Playback.currentNotes st) =? 0)%nat then
    Playback.set_buttons (Playback.mkButtons false true true)
      (Playback.set_isPlaying false
         (Playback.call (Playback.showError Playback.NoValidNotes) st))
  else
    playNotes (Playback.set_currentNoteIndex 0 st).

Definition playAudio (notation : option jsstring) (st : Playback.State)
  : Playback.State :=
  match notation with
  | None => Playback.call (Playback.showError Playback.NoMusicToPlay) st
  | Some text =>
      if (length text =? 0)%nat || JSString.eqb text Playback.placeholder
      then Playback.call (Playback.showError Playback.NoMusicToPlay) st
      else if Playback.contextSuspended st
           then Playback.suspend (Playback.AwaitToneStart text) st
           else playAudio_start text st
  end.

(** [pauseAudio], generation.js lines 791-799. *)
Definition pauseAudio (st : Playback.State) : Playback.State :=
  let st := Playback.set_isPlaying false st in
  if Playback.synthReady st then
    Playback.set_buttons (Playback.mkButtons false true false)
      (Playback.call (Playback.updatePlaybackStatus Playback.Paused)
         (Playback.call Playback.triggerRelease st))
  else st.

(** [stopAudio], generation.js lines 804-813. *)
Definition stopAudio (st : Playback.State) : Playback.State :=
  let st := Playback.set_isPlaying false st in
  if Playback.synthReady st then
    Playback.set_buttons (Playback.mkButtons false true true)
      (Playback.call (Playback.updatePlaybackStatus Playback.Stopped)
         (Playback.set_currentNoteIndex 0 (Playback.call Playback.triggerRelease st)))
  else st.

Definition resume (t : Playback.Task) (st : Playback.State) : Playback.State :=
  match t with
  | Playback.AwaitToneStart notation =>
      playAudio_start notation (Playback.set_contextSuspended false st)
  | Playback.AwaitTimeout totalNotes =>
      loopTurn totalNotes
        (Playback.set_currentNoteIndex (Playback.currentNoteIndex st + 1) st)
  end.

(** The listeners of generation.js lines 465-467. *)
Definition step (st : Playback.State) (e : Playback.Event) : Playback.State :=
  match e with
  | Playback.ClickPlay notation =>
      if Playback.playBtn (Playback.buttons st) then st else playAudio notation st
  | Playback.ClickPause =>
      if Playback.pauseBtn (Playback.buttons st) then st else pauseAudio st
  | Playback.ClickStop =>
      if Playback.stopBtn (Playback.buttons st) then st else stopAudio st
  | Playback.Resume i =>
      match nth_error (Playback.pending st) i with
      | Some t => resume t (Playback.set_pending (Playback.removeNth i (Playback.pending st)) st)
      | None => st
      end
  end.

Definition run (st : Playback.State) (es : list Playback.Event) : Playback.State :=
  fold_left step es st.

End GenerationPlayer.

(* ================================================================== *)
(** * The file name of a download *)
(* ================================================================== *)

Module Download.

Import Regex.
Local Open Scope N_scope.

Definition DASH : char := 45.
Definition DOT : char := 46.

(** The replacement of [replace(/[:.]/g, '-')] on one character. *)
Definition dashed (c : char) : char :=
  if (c =? COLON) || (c =? DOT) then DASH else c.

(** [iso.replace(/[:.]/g, '-').slice(0, -5)], where [iso] is what
    [new Date().toISOString()] returned (playback.js line 386, and the same
    expression in every other download function). *)
Definition fileTimestamp (iso : jsstring) : jsstring :=
  firstn (length iso - 5) (map dashed iso).

(** A string without colon and without dot. *)
Definition plain (s : jsstring) : bool :=
  forallb (fun c => negb ((c =? COLON) || (c =? DOT))) s.

(** The template literal of [link.download] in [downloadABC]. *)
Definition fileName (iso : jsstring) : jsstring :=
  str "music_" ++ fileTimestamp iso ++ str ".abc".

End Download.

(* ================================================================== *)
(** * generateUUID *)
(* ================================================================== *)

Module Uuid.

Import Regex.
Local Open Scope N_scope.

Definition LOWER_X : char := 120.
Definition LOWER_Y : char := 121.

Definition template : jsstring := str "xxxxxxxx-xxxx-4xxx-yxxx-xxxxxxxxxxxx".

(** [v.toString(16)] for an integer [0 <= v < 16]: one character. *)
Definition toString16 (v : N) : char := if v <? 10 then 48 + v else 87 + v.

(** The callback of [replace(/[xy]/g, ...)] on the matched character [c],
    with [r] the value of [Math.random() * 16 | 0] it drew. *)
Definition replacement (c : char) (r : N) : char :=
  let v := if c =? LOWER_X then r else N.lor (N.land r 3) 8 in
  toString16 v.

(** The replacement runs over the template from left to right; the [k]-th
    call of the callback draws [random k]. *)
Fixpoint fill (tpl : jsstring) (random : nat -> N) (k : nat) : jsstring :=
  match tpl with
  | [] => []
  | c :: tpl' =>
      if (c =? LOWER_X) || (c =? LOWER_Y)
      then replacement c (random k) :: fill tpl' random (S k)
      else c :: fill tpl' random k
  end.

(** [generateUUID()], given the values [Math.random() * 16 | 0] takes. *)
Definition generateUUID (random : nat -> N) : jsstring := fill template random 0.


End Uuid.

(* ================================================================== *)
(** * The history of generations *)
(* ================================================================== *)

Module History.

(** An entry of the array kept under the key [history]. *)
Record HistoryItem : Type := mkItem {
  item_id : jsstring;
  item_notation : jsstring;
  item_seed : jsstring;
  item_temperature : number;
  item_length : number;
  item_timestamp : jsstring;
  isFavorite : bool
}.


(** What the history functions read and write: the two keys of
    [localStorage] ([None] for an absent key; the array under [history] is
    held decoded, [JSON.parse] giving back what [JSON.stringify] was given
    for entries of strings, finite numbers and booleans), and the two
    counters the page shows. *)
Record Page : Type := mkPage {
  history : option (list HistoryItem);
  theme : option jsstring;
  totalGenerated : nat;
  totalFavorites : nat
}.

(** [getHistory()] *)
Definition getHistory (p : Page) : list HistoryItem :=
  match history p with
  | Some h => h
  | None => []
  end.

(** [saveHistory(history)] *)
Definition saveHistory (h : list HistoryItem) (p : Page) : Page :=
  mkPage (Some h) (theme p) (totalGenerated p) (totalFavorites p).

(** [updateStats()] *)
Definition updateStats (p : Page) : Page :=
  mkPage (history p) (theme p)
         (length (getHistory p))
         (length (filter isFavorite (getHistory p))).


(** [history[index] = v] on an index in range. *)
Fixpoint setNth (index : nat) (v : HistoryItem) (h : list HistoryItem)
  : list HistoryItem :=
  match index, h with
  | _, [] => []
  | O, _ :: h' => v :: h'
  | S i, x :: h' => x :: setNth i v h'
  end.

Definition flip (it : HistoryItem) : HistoryItem :=
  mkItem (item_id it) (item_notation it) (item_seed it) (item_temperature it)
         (item_length it) (item_timestamp it) (negb (isFavorite it)).

(** [toggleFavorite(index)] *)
Definition toggleFavorite (index : nat) (p : Page) : Page :=
  let h := getHistory p in
  match nth_error h index with
  | Some it => updateStats (saveHistory (setNth index (flip it) h) p)
  | None => p
  end.


(** The argument of [importData]: [data.history] when it is an array,
    [data.theme] when it is there. *)
Record ImportedData : Type := mkData {
  data_history : option (list HistoryItem);
  data_theme : option jsstring
}.

(** The loop that fills [unique], with [seen] the set built so far. *)
Fixpoint uniqueById (seen : list jsstring) (items : list HistoryItem)
  : list HistoryItem :=
  match items with
  | [] => []
  | it :: items' =>
      if existsb (JSString.eqb (item_id it)) seen
      then uniqueById seen items'
      else it :: uniqueById (item_id it :: seen) items'
  end.

(** [importData(data)]: what it returns, and the page after it. *)
Definition importData (data : ImportedData) (p : Page) : bool * Page :=
  match data_history data with
  | None => (false, p)
  | Some imported =>
      let merged := imported ++ getHistory p in
      let unique := uniqueById [] merged in
      let limited := firstn 10 unique in
      let p := saveHistory limited p in
      let p := match data_theme data with
               | Some t =>
                   if (length t =? 0)%nat then p
                   else mkPage (history p) (Some t) (totalGenerated p) (totalFavorites p)
               | None => p
               end in
      (true, p)
  end.

(** [while (nonFavorites.length > 0 && isStorageQuotaExceeded()) nonFavorites.shift()];
    nothing is written to the storage inside the loop, so the test on the
    quota gives the same answer [exceeded] at every turn. *)
Fixpoint shiftWhile (exceeded : bool) (nonFavorites : list HistoryItem)
  : list HistoryItem :=
  match nonFavorites with
  | [] => []
  | _ :: rest' => if exceeded then shiftWhile exceeded rest' else nonFavorites
  end.

(** [cleanupStorage()], for any way [isStorageQuotaExceeded] measures the
    storage. *)
Definition cleanupStorage (isStorageQuotaExceeded : Page -> bool) (p : Page) : Page :=
  if negb (isStorageQuotaExceeded p) then p
  else
    let h := getHistory p in
    let favorites := filter isFavorite h in
    let nonFavorites := filter (fun it => negb (isFavorite it)) h in
    let nonFavorites := shiftWhile (isStorageQuotaExceeded p) nonFavorites in
    saveHistory (nonFavorites ++ favorites) p.

(** The counters on the page agree with the stored history. *)
Definition statsInSync (p : Page) : Prop :=
  totalGenerated p = length (getHistory p)
  /\ totalFavorites p = length (filter isFavorite (getHistory p)).

End History.

(* ================================================================== *)
(** * More notions used to state properties *)
(* ================================================================== *)

Module Notion.

Import Regex.
Local Open Scope Z_scope.

(** The array [notes] of [parseABCNotation] when the loop over the lines
    ends, before the fallback to the default notes. *)
Definition scannedNotes (notation : jsstring) : list NoteEvent :=
  fold_left Playback.parseLine (JSString.split notation) [].

(** A character on which the scanner can push an event. *)
Definition startsEvent (c : char) : bool := isNoteLetter c || (c =? LOWER_Z)%N.

(** How many characters of a string can start an event. *)
Definition starts (s : jsstring) : nat := length (filter startsEvent s).

(** The test [!note.rest && note.pitch > 0] of [playNotes]. *)
Definition audible (ev : NoteEvent) : bool := negb (rest ev) && (0 <? pitch ev).

(** The notes sent to the synthesizer with their lengths in seconds. *)
Fixpoint triggerCalls (cs : list Playback.Call) : list (Z * number) :=
  match cs with
  | [] => []
  | Playback.triggerAttackRelease p d :: cs' => (p, d) :: triggerCalls cs'
  | _ :: cs' => triggerCalls cs'
  end.

(** The calls of a run of [playNotes] that nothing interrupts, from index
    [i] on, [notes] being the events from that index on: for each event the
    trigger, if it is audible, then the percentage; at the end, Finished. *)
Fixpoint turnCalls (N i : nat) (notes : list NoteEvent) : list Playback.Call :=
  match notes with
  | [] => [Playback.updatePlaybackStatus Playback.Finished]
  | note :: notes' =>
      (if audible note
       then [Playback.triggerAttackRelease
               (pitch note) (JSNumber.mul Playback.baseDuration (duration note))]
       else [])
      ++ Playback.updatePlaybackStatus (Playback.Progress (Playback.progressOf i N))
      :: turnCalls N (S i) notes'
  end.

(** A call on the synthesizer. *)
Definition isSynthCall (c : Playback.Call) : bool :=
  match c with
  | Playback.triggerAttackRelease _ _ | Playback.triggerRelease => true
  | _ => false
  end.

Definition isNoValidNotes (c : Playback.Call) : bool :=
  match c with
  | Playback.showError Playback.NoValidNotes => true
  | _ => false
  end.

(** The error of an empty parse was never shown. *)
Definition neverNoValidNotes (st : Playback.State) : Prop :=
  Forall (fun c => isNoValidNotes c = false) (Playback.calls st).

(** There is no synthesizer, and the calls made on it so far are [F]. *)
Definition silent (F : list Playback.Call) (st : Playback.State) : Prop :=
  Playback.synthReady st = false
  /\ filter isSynthCall (Playback.calls st) = F.

(** The synthesizer is there, the play button is disabled exactly while
    playing and the pause button is enabled exactly then. *)
Definition buttonsFollow (st : Playback.State) : Prop :=
  Playback.synthReady st = true
  /\ Playback.playBtn (Playback.buttons st) = Playback.isPlaying st
  /\ Playback.pauseBtn (Playback.buttons st) = negb (Playback.isPlaying st).

End Notion.

(* ================================================================== *)
(** * Properties of the parser and the pitch mapper *)
(* ================================================================== *)

Import Regex.

Section ParserBasics.

Local Open Scope Z_scope.

Lemma default_notes_length : length Playback.getDefaultNotes = 8%nat.
Proof. reflexivity. Qed.

Lemma parse_nonempty (s : jsstring) : Playback.parseABCNotation s <> [].
Proof.
  unfold Playback.parseABCNotation.
  destruct (fold_left Playback.parseLine (JSString.split s) []) as [| ev notes];
    simpl; discriminate.
Qed.

(** C1. [parseABCNotation] is a total function on strings and its result
    is never empty; the empty string and a headers-only input both give
    the eight default events 64, 67, 69, 71, 76, 79, 81, 83, each of
    duration 1 and none a rest. *)
Theorem parse_total_nonempty_fallback :
  (forall s : jsstring, Playback.parseABCNotation s <> [])
  /\ Playback.parseABCNotation [] = Playback.getDefaultNotes
  /\ Playback.parseABCNotation
       (str "X:1" ++ [JSString.LF] ++ str "T:Foo" ++ [JSString.LF])
     = Playback.getDefaultNotes
  /\ map pitch Playback.getDefaultNotes = [64; 67; 69; 71; 76; 79; 81; 83]
  /\ Forall (fun ev => duration ev = JSNumber.of_Z 1 /\ rest ev = false)
            Playback.getDefaultNotes.
Proof.
  split; [| split; [| split; [| split]]].
  - exact parse_nonempty.
  - reflexivity.
  - vm_compute. reflexivity.
  - reflexivity.
  - repeat constructor.
Qed.

(** The dispatch rules on small inputs: a chord annotation, decorations
    and unknown characters emit nothing; an unterminated annotation runs to
    the end of the line. *)
Example parse_skips_annotations_and_decorations :
  map pitch (Playback.parseABCNotation
               (QUOTE :: str "Em" ++ QUOTE :: str "c{d}~e!f+.g x y 7 ^c"))
  = [72; 74; 76; 77; 79; 72].
Proof. vm_compute. reflexivity. Qed.

Example parse_unterminated_annotation :
  map pitch (Playback.parseABCNotation (str "cd" ++ QUOTE :: str "Em ef g")) = [72; 74].
Proof. vm_compute. reflexivity. Qed.

Example parse_octaves_and_rests :
  Playback.parseABCNotation (str "c'2 D,,/ z4")
  = [ mkNote 84 (JSNumber.of_Z 2) false;
      mkNote 38 (JSNumber.div (JSNumber.of_Z 1) (JSNumber.of_Z 2)) false;
      mkNote 0 (JSNumber.of_Z 4) true ].
Proof. vm_compute. reflexivity. Qed.

(** C5. The end-to-end scenario: two header lines, then [AB cd|z2 e2|]. *)
Theorem parse_end_to_end_scenario :
  Playback.parseABCNotation
    (str "X:1" ++ [JSString.LF] ++ str "K:G" ++ [JSString.LF] ++ str "AB cd|z2 e2|")
  = [ mkNote 69 (JSNumber.of_Z 1) false;
      mkNote 71 (JSNumber.of_Z 1) false;
      mkNote 72 (JSNumber.of_Z 1) false;
      mkNote 74 (JSNumber.of_Z 1) false;
      mkNote 0 (JSNumber.of_Z 2) true;
      mkNote 76 (JSNumber.of_Z 2) false ].
Proof. vm_compute. reflexivity. Qed.

End ParserBasics.

Section PitchMapper.

Local Open Scope Z_scope.

Lemma eqb_single (k b : char) : JSString.eqb [k] [b] = (k =? b)%N.
Proof.
  unfold JSString.eqb.
  destruct (list_eq_dec N.eq_dec [k] [b]) as [E | E]; symmetry.
  - injection E as ->. apply N.eqb_refl.
  - apply N.eqb_neq. intros ->. apply E. reflexivity.
Qed.

Lemma lookup_single (b : char) :
  match lookup Playback.noteMap [b] with Some v => v | None => 64 end
  = Spec.tableValue b.
Proof.
  let m := eval vm_compute in Playback.noteMap in
  change Playback.noteMap with m.
  unfold Spec.tableValue, lookup.
  rewrite !eqb_single.
  repeat match goal with
         | |- context [ (?k =? b)%N ] =>
             rewrite (N.eqb_sym k b); destruct (b =? k)%N; [reflexivity |]
         end.
  reflexivity.
Qed.

Lemma filter_marks (marks : jsstring) :
  forallb isOctaveMark marks = true ->
  filter (fun c => negb (isOctaveMark c)) marks = [].
Proof.
  induction marks as [| c marks IH]; simpl; [reflexivity |].
  intro H. apply andb_prop in H as [Hc Hm]. rewrite Hc. simpl. auto.
Qed.

Lemma countChar_count_occ (c : char) (s : jsstring) :
  JSString.countChar c s = count_occ N.eq_dec s c.
Proof.
  unfold JSString.countChar.
  induction s as [| x s IH]; simpl; [reflexivity |].
  destruct (N.eq_dec x c) as [-> | Hne].
  - rewrite N.eqb_refl. simpl. now rewrite IH.
  - destruct (N.eqb_spec c x) as [-> | _]; [contradiction | exact IH].
Qed.

Lemma includes_false_count (c : char) (s : jsstring) :
  JSString.includes c s = false -> JSString.countChar c s = 0%nat.
Proof.
  unfold JSString.includes, JSString.countChar.
  induction s as [| x s IH]; simpl; [reflexivity |].
  destruct (c =? x)%N; simpl; [discriminate | exact IH].
Qed.

(** The two guarded updates of [midi] amount to adding and subtracting
    the number of marks unconditionally. *)
Lemma noteToMIDI_unfold (note : jsstring) :
  Playback.noteToMIDI note
  = Z.max 0 (Z.min 127
      (match lookup Playback.noteMap
               (filter (fun c => negb (isOctaveMark c)) note) with
       | Some v => v | None => 64 end
       + Z.of_nat (JSString.countChar APOSTROPHE note) * 12
       - Z.of_nat (JSString.countChar COMMA note) * 12)).
Proof.
  unfold Playback.noteToMIDI.
  destruct (JSString.includes APOSTROPHE note) eqn:Ha;
    destruct (JSString.includes COMMA note) eqn:Hc;
    try rewrite (includes_false_count _ _ Ha);
    try rewrite (includes_false_count _ _ Hc);
    f_equal; f_equal; lia.
Qed.

(** C2. For a token made of a base letter followed by octave marks,
    [noteToMIDI] is the table value (E's for a letter not in the table)
    plus 12 per apostrophe, minus 12 per comma, clamped into 0..127; so
    c is 72, c' is 84, c,, is 48 and C is 64. *)
Theorem noteToMIDI_table_octaves_clamped :
  (forall (base : char) (marks : jsstring),
      isOctaveMark base = false ->
      forallb isOctaveMark marks = true ->
      Playback.noteToMIDI (base :: marks) = Spec.toPitch base marks
      /\ 0 <= Playback.noteToMIDI (base :: marks) <= 127)
  /\ Playback.noteToMIDI (str "c") = 72
  /\ Playback.noteToMIDI (str "c'") = 84
  /\ Playback.noteToMIDI (str "c,,") = 48
  /\ Playback.noteToMIDI (str "C") = 64.
Proof.
  split; [| repeat split; reflexivity].
  intros base marks Hb Hm.
  assert (E : Playback.noteToMIDI (base :: marks) = Spec.toPitch base marks).
  { rewrite noteToMIDI_unfold. simpl filter. rewrite Hb. simpl negb. cbv iota.
    rewrite (filter_marks _ Hm), lookup_single.
    rewrite !countChar_count_occ. simpl count_occ.
    unfold isOctaveMark in Hb. apply orb_false_elim in Hb as [Ha Hc].
    apply N.eqb_neq in Ha, Hc.
    destruct (N.eq_dec base APOSTROPHE) as [E | _]; [contradiction |].
    destruct (N.eq_dec base COMMA) as [E | _]; [contradiction |].
    unfold Spec.toPitch, Spec.clamp.
    destruct (Z.ltb_spec (Spec.tableValue base
               + 12 * Z.of_nat (count_occ N.eq_dec marks APOSTROPHE)
               - 12 * Z.of_nat (count_occ N.eq_dec marks COMMA)) 0);
      destruct (Z.ltb_spec 127 (Spec.tableValue base
               + 12 * Z.of_nat (count_occ N.eq_dec marks APOSTROPHE)
               - 12 * Z.of_nat (count_occ N.eq_dec marks COMMA)));
      lia. }
  split; [exact E |].
  rewrite noteToMIDI_unfold. lia.
Qed.

Lemma noteToMIDI_table_octaves_clamped_witness :
  Playback.noteToMIDI (str "g,'''") = Spec.toPitch 103%N (str ",'''")
  /\ 0 <= Playback.noteToMIDI (str "g,'''") <= 127.
Proof.
  apply (proj1 noteToMIDI_table_octaves_clamped 103%N (str ",'''")); reflexivity.
Defined.

End PitchMapper.

Section TwoCopies.

Lemma generation_scanLoop (fuel : nat) :
  forall sfx notes,
    Generation.scanLoop fuel sfx notes = Playback.scanLoop fuel sfx notes.
Proof.
  induction fuel as [| fuel IH]; intros sfx notes; [reflexivity |].
  destruct sfx as [| c after]; [reflexivity |].
  simpl.
  change (Generation.scanStep c after) with (Playback.scanStep c after).
  destruct (Playback.scanStep c after) as [ev sfx']. apply IH.
Qed.

Lemma generation_parseLine (notes : list NoteEvent) (line : jsstring) :
  Generation.parseLine notes line = Playback.parseLine notes line.
Proof.
  unfold Generation.parseLine, Playback.parseLine.
  now rewrite generation_scanLoop.
Qed.

Lemma generation_fold (lines : list jsstring) :
  forall notes,
    fold_left Generation.parseLine lines notes
    = fold_left Playback.parseLine lines notes.
Proof.
  induction lines as [| l lines IH]; intro notes; simpl; [reflexivity |].
  now rewrite generation_parseLine, IH.
Qed.

(** C10. The copies of [parseABCNotation], [noteToMIDI] and
    [getDefaultNotes] in generation.js compute the same results as those
    of playback.js, on every input. *)
Theorem generation_copy_agrees_with_playback :
  (forall notation : jsstring,
      Generation.parseABCNotation notation = Playback.parseABCNotation notation)
  /\ (forall note : jsstring,
         Generation.noteToMIDI note = Playback.noteToMIDI note)
  /\ Generation.getDefaultNotes = Playback.getDefaultNotes.
Proof.
  split; [| split].
  - intro notation.
    unfold Generation.parseABCNotation, Playback.parseABCNotation.
    rewrite generation_fold.
    destruct (fold_left Playback.parseLine (JSString.split notation) []);
      reflexivity.
  - intro note. reflexivity.
  - reflexivity.
Qed.

End TwoCopies.

Section Durations.

Lemma isDigit_cases (c : char) :
  isDigit c = true ->
  In c [48; 49; 50; 51; 52; 53; 54; 55; 56; 57]%N.
Proof.
  unfold isDigit. intro H. apply andb_prop in H as [H1 H2].
  apply N.leb_le in H1, H2. simpl.
  assert (c = 48 \/ c = 49 \/ c = 50 \/ c = 51 \/ c = 52 \/ c = 53 \/ c = 54
          \/ c = 55 \/ c = 56 \/ c = 57)%N by lia.
  intuition auto.
Qed.

Lemma slash_not_digit (c : char) : (c =? SLASH)%N = true -> isDigit c = false.
Proof. intro H. apply N.eqb_eq in H. subst c. reflexivity. Qed.

(** The duration block reads at most one digit before the slash and at
    most one after it. *)
Lemma parseDuration_rule (sfx : jsstring) :
  Playback.parseDuration sfx = Spec.durationRule sfx.
Proof.
  unfold Playback.parseDuration, Spec.durationRule, parseInt, Spec.digitValue.
  destruct sfx as [| n sfx1]; [reflexivity |].
  destruct (isDigit n) eqn:Hn.
  - destruct sfx1 as [| s sfx2]; [reflexivity |].
    destruct (s =? SLASH)%N; [| reflexivity].
    destruct sfx2 as [| d sfx3]; [reflexivity |].
    destruct (isDigit d); reflexivity.
  - destruct (n =? SLASH)%N; [| reflexivity].
    destruct sfx1 as [| d sfx2]; [reflexivity |].
    destruct (isDigit d); reflexivity.
Qed.

(** C4, as the code has it.  The duration of a note or rest token is read
    from at most one digit (the numerator, 1 when absent), then, after an
    optional slash, at most one more digit (the denominator, 2 when the
    slash is followed by no digit): c2 lasts 2, c3/4 lasts 3/4, a bare
    letter lasts 1 and a trailing slash halves.  Digits after the first
    are not part of the number: c12 lasts 1 and c3/16 lasts 3. *)
Theorem duration_reads_single_digits :
  (forall sfx : jsstring, Playback.parseDuration sfx = Spec.durationRule sfx)
  /\ map duration (Playback.parseABCNotation (str "c2")) = [JSNumber.of_Z 2]
  /\ map duration (Playback.parseABCNotation (str "c3/4"))
     = [JSNumber.div (JSNumber.of_Z 3) (JSNumber.of_Z 4)]
  /\ map duration (Playback.parseABCNotation (str "c")) = [JSNumber.of_Z 1]
  /\ map duration (Playback.parseABCNotation (str "c/"))
     = [JSNumber.div (JSNumber.of_Z 1) (JSNumber.of_Z 2)]
  /\ map duration (Playback.parseABCNotation (str "z6/"))
     = [JSNumber.of_Z 3]
  /\ map duration (Playback.parseABCNotation (str "c12")) = [JSNumber.of_Z 1]
  /\ map duration (Playback.parseABCNotation (str "c3/16")) = [JSNumber.of_Z 3].
Proof.
  split; [exact parseDuration_rule |].
  repeat split; vm_compute; reflexivity.
Qed.

(** C4 as stated fails: in c12 the numerator is not the digit sequence 12,
    and in c3/16 the denominator is not 16. *)
Lemma duration_digit_sequence_counterexample :
  map duration (Playback.parseABCNotation (str "c12")) <> [JSNumber.of_Z 12]
  /\ map duration (Playback.parseABCNotation (str "c3/16"))
     <> [JSNumber.div (JSNumber.of_Z 3) (JSNumber.of_Z 16)].
Proof. split; vm_compute; discriminate. Qed.

End Durations.

(* ================================================================== *)
(** * The scanning loop: what a turn consumes *)
(* ================================================================== *)

Section ScannerFacts.

Import Spec.

Lemma suffix_refl (l : jsstring) : suffix l l.
Proof. now exists []. Qed.

Lemma suffix_cons (c : char) (s l : jsstring) : suffix s l -> suffix s (c :: l).
Proof. intros [p ->]. now exists (c :: p). Qed.

Lemma suffix_trans (a b c : jsstring) : suffix a b -> suffix b c -> suffix a c.
Proof. intros [p ->] [q ->]. exists (q ++ p). now rewrite app_assoc. Qed.

Lemma suffix_length (s l : jsstring) : suffix s l -> (length s <= length l)%nat.
Proof. intros [p ->]. rewrite length_app. lia. Qed.

Lemma suffix_In (s l : jsstring) (x : char) : suffix s l -> In x s -> In x l.
Proof. intros [p ->] H. apply in_or_app. now right. Qed.

Lemma suffix_tl (l : jsstring) : suffix (List.tl l) l.
Proof. destruct l as [| c l]; [apply suffix_refl | apply suffix_cons, suffix_refl]. Qed.

Lemma skipToQuote_suffix (l : jsstring) : suffix (Playback.skipToQuote l) l.
Proof.
  induction l as [| c l IH]; simpl; [apply suffix_refl |].
  destruct (c =? QUOTE)%N; [apply suffix_refl | now apply suffix_cons].
Qed.

Lemma skipAccidentals_suffix (l : jsstring) :
  suffix (Playback.skipAccidentals l) l.
Proof.
  induction l as [| c l IH]; simpl; [apply suffix_refl |].
  destruct (isAccidental c); [now apply suffix_cons | apply suffix_refl].
Qed.

Lemma takeOctaves_suffix (l : jsstring) :
  suffix (snd (Playback.takeOctaves l)) l.
Proof.
  induction l as [| c l IH]; simpl; [apply suffix_refl |].
  destruct (isOctaveMark c); [| apply suffix_refl].
  destruct (Playback.takeOctaves l) as [marks sfx']. simpl in *.
  now apply suffix_cons.
Qed.

Lemma parseDuration_suffix (l : jsstring) :
  suffix (snd (Playback.parseDuration l)) l.
Proof.
  rewrite parseDuration_rule. unfold Spec.durationRule.
  repeat match goal with
         | |- context [ match ?x with [] => _ | _ :: _ => _ end ] => destruct x
         | |- context [ if ?b then _ else _ ] => destruct b
         end;
    simpl; repeat first [apply suffix_refl | apply suffix_cons].
Qed.

(** A turn of the loop leaves a part of what followed [c], and the
    duration of the event it pushes was read by the duration block
    somewhere after [c]. *)
Lemma scanStep_sound (c : char) (after : jsstring) :
  suffix (snd (Playback.scanStep c after)) after
  /\ (forall ev, fst (Playback.scanStep c after) = Some ev ->
        exists s, suffix s after /\ duration ev = fst (Playback.parseDuration s)).
Proof.
  unfold Playback.scanStep.
  destruct (c =? QUOTE)%N.
  { split; [| discriminate]. simpl.
    eapply suffix_trans; [apply suffix_tl | apply skipToQuote_suffix]. }
  destruct (isBarSymbol c); [split; [apply suffix_refl | discriminate] |].
  destruct (c =? SPACE)%N; [split; [apply suffix_refl | discriminate] |].
  destruct (isDecoration c); [split; [apply suffix_refl | discriminate] |].
  destruct (isNoteLetter c).
  { pose proof (skipAccidentals_suffix after) as H1.
    pose proof (takeOctaves_suffix (Playback.skipAccidentals after)) as H2.
    destruct (Playback.takeOctaves (Playback.skipAccidentals after))
      as [marks s2]. simpl in H2.
    pose proof (parseDuration_suffix s2) as H3.
    destruct (Playback.parseDuration s2) as [d s3] eqn:Hd. simpl in *.
    assert (H12 : suffix s2 after) by (eapply suffix_trans; eassumption).
    split; [eapply suffix_trans; eassumption |].
    intros ev [= <-]. exists s2. simpl. now rewrite Hd. }
  destruct (c =? LOWER_Z)%N; [| split; [apply suffix_refl | discriminate]].
  pose proof (parseDuration_suffix after) as H3.
  destruct (Playback.parseDuration after) as [d s3] eqn:Hd. simpl in *.
  split; [exact H3 |].
  intros ev [= <-]. exists after. simpl. rewrite Hd. split; [apply suffix_refl | reflexivity].
Qed.

Lemma scanStep_length (c : char) (after : jsstring) :
  (length (snd (Playback.scanStep c after)) <= length after)%nat.
Proof. apply suffix_length, scanStep_sound. Qed.

(** [length sfx] turns are enough: more fuel changes nothing. *)
Lemma scanLoop_enough (fuel : nat) :
  forall fuel' sfx notes,
    (length sfx <= fuel)%nat -> (length sfx <= fuel')%nat ->
    Playback.scanLoop fuel sfx notes = Playback.scanLoop fuel' sfx notes.
Proof.
  induction fuel as [| fuel IH]; intros fuel' sfx notes Hlen Hlen'.
  - destruct sfx; [now destruct fuel' | simpl in Hlen; lia].
  - destruct sfx as [| c after]; [now destruct fuel' |].
    destruct fuel' as [| fuel']; simpl in *; [lia |].
    pose proof (scanStep_length c after) as Hs.
    destruct (Playback.scanStep c after) as [ev sfx']. simpl in Hs.
    apply IH; lia.
Qed.

Lemma scanLoop_fuel (fuel : nat) (sfx : jsstring) (notes : list NoteEvent) :
  (length sfx <= fuel)%nat ->
  Playback.scanLoop fuel sfx notes = Playback.scanLoop (length sfx) sfx notes.
Proof. intro H. apply scanLoop_enough; [exact H | apply Nat.le_refl]. Qed.

(** Every event the loop pushes has a duration read by the duration
    block on some part of the line. *)
Lemma scanLoop_durations (D : number -> Prop) (fuel : nat) :
  forall sfx notes,
    (forall s, suffix s sfx -> D (fst (Playback.parseDuration s))) ->
    Forall (fun ev => D (duration ev)) notes ->
    Forall (fun ev => D (duration ev)) (Playback.scanLoop fuel sfx notes).
Proof.
  induction fuel as [| fuel IH]; intros sfx notes HD Hnotes; [exact Hnotes |].
  destruct sfx as [| c after]; [exact Hnotes |].
  simpl. destruct (scanStep_sound c after) as [Hsuf Hev].
  destruct (Playback.scanStep c after) as [ev sfx']. simpl in *.
  apply IH.
  - intros s Hs. apply HD, suffix_cons. eapply suffix_trans; eassumption.
  - destruct ev as [e |]; simpl; [| exact Hnotes].
    apply Forall_app. split; [exact Hnotes |].
    constructor; [| constructor].
    destruct (Hev e eq_refl) as [s [Hs ->]]. apply HD, suffix_cons, Hs.
Qed.

Lemma split_In (s : jsstring) :
  forall l x, In l (JSString.split s) -> In x l -> In x s.
Proof.
  induction s as [| c s IH]; intros l x Hl Hx; simpl in Hl.
  - destruct Hl as [<- | []]. exact Hx.
  - destruct (c =? JSString.LF)%N.
    + destruct Hl as [<- | Hl]; [destruct Hx |]. right. eapply IH; eassumption.
    + destruct (JSString.split s) as [| l0 ls] eqn:Hsplit.
      * destruct Hl as [<- | []]. destruct Hx as [<- | []]. now left.
      * destruct Hl as [<- | Hl].
        -- destruct Hx as [<- | Hx]; [now left |]. right.
           apply (IH l0 x); [now left | exact Hx].
        -- right. apply (IH l x); [now right | exact Hx].
Qed.

(** Every event of a parse has a duration read by the duration block on
    a part of the input that holds no character the input does not. *)
Lemma parse_durations (D : number -> Prop) (notation : jsstring) :
  D (JSNumber.of_Z 1) ->
  (forall s, (forall x, In x s -> In x notation) ->
             D (fst (Playback.parseDuration s))) ->
  Forall (fun ev => D (duration ev)) (Playback.parseABCNotation notation).
Proof.
  intros H1 HD. unfold Playback.parseABCNotation.
  assert (H : forall lines notes,
             (forall l, In l lines -> In l (JSString.split notation)) ->
             Forall (fun ev => D (duration ev)) notes ->
             Forall (fun ev => D (duration ev))
                    (fold_left Playback.parseLine lines notes)).
  { induction lines as [| l lines IH]; intros notes Hin Hnotes; [exact Hnotes |].
    simpl. apply IH; [intros; apply Hin; now right |].
    unfold Playback.parseLine.
    destruct (isHeader l); [exact Hnotes |].
    destruct (JSString.trimIsEmpty l); [exact Hnotes |].
    apply scanLoop_durations; [| exact Hnotes].
    intros s Hs. apply HD. intros x Hx.
    apply (split_In notation l x); [apply Hin; now left |].
    eapply suffix_In; eassumption. }
  specialize (H (JSString.split notation) [] (fun l Hl => Hl) (Forall_nil _)).
  destruct (fold_left Playback.parseLine (JSString.split notation) []) as [| e es].
  - simpl. repeat constructor; exact H1.
  - exact H.
Qed.

End ScannerFacts.

Section DurationSign.

(** Expand a hypothesis [In c [48; ...; 57]] into its ten cases. *)
Ltac digit_cases H :=
  apply isDigit_cases in H; simpl in H;
  repeat (destruct H as [<- | H]); [.. | destruct H].

Lemma parseDuration_notNegative (sfx : jsstring) :
  Spec.notNegative (fst (Playback.parseDuration sfx)) = true.
Proof.
  rewrite parseDuration_rule. unfold Spec.durationRule.
  destruct sfx as [| n sfx1]; [reflexivity |].
  destruct (isDigit n) eqn:Hn.
  - destruct sfx1 as [| s sfx2]; [digit_cases Hn; reflexivity |].
    destruct (s =? SLASH)%N; [| digit_cases Hn; reflexivity].
    destruct sfx2 as [| d sfx3]; [digit_cases Hn; reflexivity |].
    destruct (isDigit d) eqn:Hd; [| digit_cases Hn; reflexivity].
    digit_cases Hn; digit_cases Hd; vm_compute; reflexivity.
  - destruct (n =? SLASH)%N; [| reflexivity].
    destruct sfx1 as [| d sfx2]; [reflexivity |].
    destruct (isDigit d) eqn:Hd; [| reflexivity].
    digit_cases Hd; reflexivity.
Qed.

Lemma parseDuration_positive (sfx : jsstring) :
  ~ In 48%N sfx ->
  Spec.positiveFinite (fst (Playback.parseDuration sfx)) = true.
Proof.
  intro H0.
  rewrite parseDuration_rule. unfold Spec.durationRule.
  destruct sfx as [| n sfx1]; [reflexivity |].
  assert (Hn0 : n <> 48%N) by (intros ->; apply H0; now left).
  destruct (isDigit n) eqn:Hn.
  - destruct sfx1 as [| s sfx2];
      [digit_cases Hn; try reflexivity; now contradiction Hn0 |].
    destruct (s =? SLASH)%N;
      [| digit_cases Hn; try reflexivity; now contradiction Hn0].
    destruct sfx2 as [| d sfx3];
      [digit_cases Hn; try reflexivity; now contradiction Hn0 |].
    assert (Hd0 : d <> 48%N) by (intros ->; apply H0; right; right; now left).
    destruct (isDigit d) eqn:Hd;
      [| digit_cases Hn; try reflexivity; now contradiction Hn0].
    digit_cases Hn; try (now contradiction Hn0);
      digit_cases Hd; try (now contradiction Hd0); vm_compute; reflexivity.
  - destruct (n =? SLASH)%N; [| reflexivity].
    destruct sfx1 as [| d sfx2]; [reflexivity |].
    assert (Hd0 : d <> 48%N) by (intros ->; apply H0; right; now left).
    destruct (isDigit d) eqn:Hd; [| reflexivity].
    digit_cases Hd; try reflexivity; now contradiction Hd0.
Qed.

(** C3, as the code has it.  The duration of every event of a parse is
    never negative; it is a positive finite number, for notes and rests
    alike, whenever the input holds no digit 0.  (A numerator digit 0
    gives duration 0, a denominator digit 0 gives Infinity or NaN.) *)
Theorem durations_positive_without_zero_digit :
  forall (notation : jsstring) (ev : NoteEvent),
    In ev (Playback.parseABCNotation notation) ->
    Spec.notNegative (duration ev) = true
    /\ (~ In 48%N notation -> Spec.positiveFinite (duration ev) = true).
Proof.
  intros notation ev Hin. split.
  - pose proof (parse_durations (fun d => Spec.notNegative d = true) notation
                  eq_refl (fun s _ => parseDuration_notNegative s)) as H.
    rewrite Forall_forall in H. now apply H.
  - intro H0.
    assert (H : Forall (fun e => Spec.positiveFinite (duration e) = true)
                       (Playback.parseABCNotation notation)).
    { apply parse_durations with (D := fun d => Spec.positiveFinite d = true);
        [reflexivity |].
      intros s Hs. apply parseDuration_positive. intro Hc. apply H0, Hs, Hc. }
    rewrite Forall_forall in H. now apply H.
Qed.

Lemma durations_positive_without_zero_digit_witness :
  Spec.notNegative (JSNumber.div (JSNumber.of_Z 3) (JSNumber.of_Z 4)) = true
  /\ Spec.positiveFinite (JSNumber.div (JSNumber.of_Z 3) (JSNumber.of_Z 4)) = true.
Proof.
  assert (Hin : In (mkNote 0 (JSNumber.div (JSNumber.of_Z 3) (JSNumber.of_Z 4)) true)
                   (Playback.parseABCNotation (str "z3/4")))
    by (vm_compute; left; reflexivity).
  assert (Hno : ~ In 48%N (str "z3/4"))
    by (simpl; intros [H | [H | [H | [H | []]]]]; discriminate H).
  split.
  - exact (proj1 (durations_positive_without_zero_digit _ _ Hin)).
  - exact (proj2 (durations_positive_without_zero_digit _ _ Hin) Hno).
Defined.

(** C3 as stated fails: the note c0 lasts 0, the rest z/0 lasts Infinity
    and the note c0/0 lasts NaN. *)
Lemma duration_not_positive_counterexample :
  ~ Forall (fun ev => Spec.positiveFinite (duration ev) = true)
           (Playback.parseABCNotation (str "c0"))
  /\ map duration (Playback.parseABCNotation (str "c0")) = [JSNumber.zero]
  /\ map duration (Playback.parseABCNotation (str "z/0")) = [JSNumber.infinity]
  /\ map duration (Playback.parseABCNotation (str "c0/0")) = [JSNumber.NaN].
Proof.
  split; [| repeat split; vm_compute; reflexivity].
  intro H. inversion H as [| ev l Hev _ E]. vm_compute in Hev. discriminate.
Qed.

End DurationSign.

(* ================================================================== *)
(** * Binary64 facts the scheduler needs *)
(* ================================================================== *)

Section NumberFacts.

Local Open Scope Z_scope.

Lemma digits2_pos_iter_xO (p k : positive) :
  digits2_pos (Pos.iter xO p k) = (digits2_pos p + k)%positive.
Proof.
  induction k as [| k IH] using Pos.peano_ind.
  - simpl. lia.
  - rewrite Pos.iter_succ. simpl. rewrite IH. lia.
Qed.

Lemma digits2_pos_lower (p : positive) :
  2 ^ (Zpos (digits2_pos p) - 1) <= Zpos p.
Proof.
  induction p as [p IH | p IH |]; simpl digits2_pos.
  - replace (Zpos (Pos.succ (digits2_pos p)) - 1)
      with (Z.succ (Zpos (digits2_pos p) - 1)) by lia.
    rewrite Z.pow_succ_r by lia. lia.
  - replace (Zpos (Pos.succ (digits2_pos p)) - 1)
      with (Z.succ (Zpos (digits2_pos p) - 1)) by lia.
    rewrite Z.pow_succ_r by lia. lia.
  - simpl. lia.
Qed.

Lemma digits2_pos_bound (p : positive) :
  Zpos p < 2 ^ 53 -> Zpos (digits2_pos p) <= 53.
Proof.
  intro H. pose proof (digits2_pos_lower p) as Hl.
  destruct (Z_le_gt_dec (Zpos (digits2_pos p)) 53) as [Hle | Hgt]; [exact Hle |].
  exfalso.
  assert (2 ^ 53 <= 2 ^ (Zpos (digits2_pos p) - 1))
    by (apply Z.pow_le_mono_r; lia).
  lia.
Qed.

(** Rounding a mantissa that is already in canonical form returns it. *)
Lemma binary_round_aux_canonical (s : bool) (m : positive) (e : Z) :
  fexp JSNumber.prec JSNumber.emax (Zpos (digits2_pos m) + e) = e ->
  e <= 971 ->
  binary_round_aux JSNumber.prec JSNumber.emax s (Zpos m) e loc_Exact
  = S754_finite s m e.
Proof.
  intros Hc He.
  unfold binary_round_aux, shr_fexp. simpl Zdigits2.
  rewrite Hc, Z.sub_diag.
  cbn [shr shr_record_of_loc round_nearest_even shr_m loc_of_shr_record].
  simpl Zdigits2. rewrite Hc, Z.sub_diag.
  cbn [shr shr_record_of_loc shr_m].
  unfold JSNumber.emax, JSNumber.prec.
  destruct (Z.leb_spec e (1024 - 53)); [reflexivity | lia].
Qed.

(** A positive integer below 2^53 is a finite positive number. *)
Lemma of_Z_finite (p : positive) :
  Zpos p < 2 ^ 53 ->
  exists m e, JSNumber.of_Z (Zpos p) = S754_finite false m e.
Proof.
  intro Hp. pose proof (digits2_pos_bound p Hp) as Hd.
  unfold JSNumber.of_Z, binary_normalize, binary_round.
  set (d := Zpos (digits2_pos p)) in *.
  assert (Hf : fexp JSNumber.prec JSNumber.emax (d + 0) = d - 53).
  { unfold fexp, emin, JSNumber.prec, JSNumber.emax. subst d. lia. }
  rewrite Hf. unfold shl_align.
  destruct (d - 53 - 0) as [| q | q] eqn:Hq.
  - exists p, 0. apply binary_round_aux_canonical; [| lia].
    fold d. rewrite Hf. lia.
  - subst d. lia.
  - exists (Pos.iter xO p q), (d - 53).
    apply binary_round_aux_canonical; [| lia].
    rewrite digits2_pos_iter_xO.
    unfold fexp, emin, JSNumber.prec, JSNumber.emax. subst d. lia.
Qed.

(** [x / x] is 1 for a finite non-zero [x]. *)
Lemma div_self (s : bool) (m : positive) (e : Z) :
  JSNumber.div (S754_finite s m e) (S754_finite s m e) = JSNumber.of_Z 1.
Proof.
  unfold JSNumber.div, SFdiv, SFdiv_core_binary. simpl Zdigits2.
  replace (Zpos (digits2_pos m) + e - (Zpos (digits2_pos m) + e)) with 0 by lia.
  rewrite Z.sub_diag.
  change (Z.min (fexp JSNumber.prec JSNumber.emax 0) 0) with (-53).
  change (0 - -53) with 53.
  cbv beta iota zeta.
  rewrite Z.shiftl_mul_pow2 by lia.
  assert (E : Z.div_eucl (Zpos m * 2 ^ 53) (Zpos m) = (2 ^ 53, 0)).
  { rewrite (surjective_pairing (Z.div_eucl _ _)).
    change (fst (Z.div_eucl (Zpos m * 2 ^ 53) (Zpos m)))
      with ((Zpos m * 2 ^ 53) / Zpos m).
    change (snd (Z.div_eucl (Zpos m * 2 ^ 53) (Zpos m)))
      with ((Zpos m * 2 ^ 53) mod Zpos m).
    rewrite (Z.mul_comm (Zpos m)), Z.div_mul, Z.mod_mul by lia. reflexivity. }
  rewrite E.
  assert (L : new_location (Zpos m) 0 = loc_Exact).
  { unfold new_location. destruct (Z.even (Zpos m)); reflexivity. }
  rewrite L. destruct s; vm_compute; reflexivity.
Qed.

(** The last percentage: [Math.round((N / N) * 100)] is 100. *)
Lemma full_progress (N : nat) :
  (1 <= N)%nat -> Z.of_nat N < 2 ^ 32 ->
  JSNumber.Math_round
    (JSNumber.mul (JSNumber.div (JSNumber.of_nat N) (JSNumber.of_nat N))
                  (JSNumber.of_Z 100))
  = JSNumber.of_Z 100.
Proof.
  intros H1 H2. unfold JSNumber.of_nat.
  destruct (Z.of_nat N) as [| p | p] eqn:E; try lia.
  destruct (of_Z_finite p) as [m [e ->]].
  { assert (2 ^ 32 < 2 ^ 53) by (apply Z.pow_lt_mono_r; lia). lia. }
  rewrite div_self. vm_compute. reflexivity.
Qed.

End NumberFacts.

(* ================================================================== *)
(** * Properties of the playback scheduler *)
(* ================================================================== *)

Section Scheduler.

Import Playback.

(** C7. When the notation is absent, empty or the placeholder text,
    [playAudio] shows the no-music error and returns: [isPlaying],
    [currentNoteIndex], [currentNotes] and the buttons are as before, and
    no activation is parked (no loop was started). *)
Theorem playAudio_without_music :
  forall (st : State) (notation : option jsstring),
    notation = None \/ notation = Some [] \/ notation = Some placeholder ->
    playAudio notation st = call (showError NoMusicToPlay) st
    /\ isPlaying (playAudio notation st) = isPlaying st
    /\ currentNoteIndex (playAudio notation st) = currentNoteIndex st
    /\ currentNotes (playAudio notation st) = currentNotes st
    /\ buttons (playAudio notation st) = buttons st
    /\ pending (playAudio notation st) = pending st
    /\ calls (playAudio notation st) = calls st ++ [showError NoMusicToPlay].
Proof.
  intros st notation H.
  assert (E : playAudio notation st = call (showError NoMusicToPlay) st).
  { destruct H as [-> | [-> | ->]]; reflexivity. }
  rewrite E. repeat split.
Qed.

Lemma playAudio_without_music_witness :
  playAudio (Some placeholder) (playAudio (Some (str "cd")) freshPage)
  = call (showError NoMusicToPlay) (playAudio (Some (str "cd")) freshPage)
  /\ pending (playAudio (Some placeholder) (playAudio (Some (str "cd")) freshPage))
     = [AwaitToneStart (str "cd")].
Proof.
  pose proof (playAudio_without_music
                (playAudio (Some (str "cd")) freshPage) (Some placeholder)
                (or_intror (or_intror eq_refl))) as H.
  split; [exact (proj1 H) |].
  rewrite (proj1 (proj2 (proj2 (proj2 (proj2 (proj2 H)))))). reflexivity.
Defined.

(** One turn of the loop while playing, with a note to play: the shared
    variables are untouched, one percentage is reported and the loop is
    parked on its timer. *)
Lemma loopTurn_reports (N : nat) (st : State) (note : NoteEvent) :
  isPlaying st = true ->
  synthReady st = true ->
  (currentNoteIndex st < N)%nat ->
  nth_error (currentNotes st) (currentNoteIndex st) = Some note ->
  exists cs,
    loopTurn N st
    = mkState true (contextSuspended st) true (currentNotes st)
              (currentNoteIndex st) (buttons st)
              (pending st ++ [AwaitTimeout N]) (calls st ++ cs)
    /\ progressUpdates cs = [progressOf (currentNoteIndex st) N].
Proof.
  destruct st as [sr su ip ns i b pe cs]. simpl. intros -> -> Hi Hn.
  unfold loopTurn. simpl.
  apply Nat.ltb_lt in Hi. rewrite Hi, Hn. simpl.
  destruct (negb (rest note) && (0 <? pitch note)%Z).
  - exists [triggerAttackRelease (pitch note)
              (JSNumber.mul baseDuration (duration note));
            updatePlaybackStatus (Progress (progressOf i N))].
    split; [| reflexivity].
    unfold suspend, call, set_pending. simpl. now rewrite <- app_assoc.
  - exists [updatePlaybackStatus (Progress (progressOf i N))].
    split; reflexivity.
Qed.

Lemma progressUpdates_app (cs1 cs2 : list Call) :
  progressUpdates (cs1 ++ cs2) = progressUpdates cs1 ++ progressUpdates cs2.
Proof.
  induction cs1 as [| c cs1 IH]; [reflexivity |].
  destruct c as [[| p | | |] | | |]; simpl; now rewrite IH.
Qed.

(** The loop from index [i] on, left alone: [k] more events, [k] timer
    wake-ups, [k] percentages, then Finished. *)
Lemma loop_runs_to_completion (k : nat) :
  forall st : State,
    isPlaying st = true ->
    synthReady st = true ->
    pending st = [] ->
    (currentNoteIndex st + k = length (currentNotes st))%nat ->
    let N := length (currentNotes st) in
    let st' := run (loopTurn N st) (Spec.timersFire k) in
    exists cs,
      calls st' = calls st ++ cs ++ [updatePlaybackStatus Finished]
      /\ progressUpdates cs
         = map (fun j => progressOf j N) (seq (currentNoteIndex st) k)
      /\ isPlaying st' = false
      /\ pending st' = [].
Proof.
  induction k as [| k IH]; intros st Hp Hs Hpe Hi N st'.
  - exists []. subst st' N. rewrite Nat.add_0_r in Hi.
    destruct st as [sr su ip ns i b pe cs]. simpl in *. subst.
    unfold loopTurn. simpl. rewrite Nat.ltb_irrefl. simpl. repeat split.
  - destruct (nth_error (currentNotes st) (currentNoteIndex st)) as [note |] eqn:Hn.
    2: { apply nth_error_None in Hn. lia. }
    destruct (loopTurn_reports N st note Hp Hs ltac:(subst N; lia) Hn)
      as [cs1 [E1 P1]].
    set (st2 := mkState true (contextSuspended st) true (currentNotes st)
                        (currentNoteIndex st + 1) (buttons st) [] (calls st ++ cs1)).
    assert (Estep : step (loopTurn N st) (Resume 0) = loopTurn N st2).
    { rewrite E1. unfold step. simpl. rewrite Hpe. reflexivity. }
    assert (Erun : st' = run (loopTurn N st2) (Spec.timersFire k)).
    { subst st'. unfold run, Spec.timersFire. cbn [repeat fold_left].
      now rewrite Estep. }
    destruct (IH st2 eq_refl eq_refl eq_refl) as [cs2 [E2 [P2 [F2 Q2]]]].
    { subst st2. simpl. lia. }
    change (length (currentNotes st2)) with N in E2, P2, F2, Q2.
    rewrite <- Erun in E2, F2, Q2.
    exists (cs1 ++ cs2). repeat split.
    + rewrite E2. subst st2. simpl. now rewrite <- !app_assoc.
    + rewrite progressUpdates_app, P1, P2. subst st2. simpl.
      now rewrite Nat.add_1_r.
    + exact F2.
    + exact Q2.
Qed.

Lemma progressOf_percentage (j N : nat) :
  progressOf j N = Spec.percentage (S j) N.
Proof. unfold progressOf, Spec.percentage. now rewrite Nat.add_1_r. Qed.

Lemma percentages_increasing_small : Spec.increasingUpTo 100 = true.
Proof. vm_compute. reflexivity. Qed.

Lemma percentages_increasing (N : nat) :
  (N <= 100)%nat ->
  Spec.strictlyIncreasing (map (fun k => Spec.percentage k N) (seq 1 N)) = true.
Proof.
  intro H. pose proof percentages_increasing_small as Hall.
  unfold Spec.increasingUpTo in Hall. rewrite forallb_forall in Hall.
  apply Hall. apply in_seq. lia.
Qed.

Lemma last_map_seq (f : nat -> number) (d : number) (n : nat) :
  last (map f (seq 1 (S n))) d = f (S n).
Proof.
  rewrite seq_S, map_app. simpl. apply last_last.
Qed.

(** C6, as the code has it.  A run of [playNotes] over [N] events that is
    left alone until it finishes reports exactly [N] percentages, the
    [k]-th being round(k / N * 100) for k = 1..N; the last one is 100, and
    they are strictly increasing when [N] is at most 100.  The run then
    reports Finished and leaves nothing parked. *)
Theorem scheduler_progress_reports :
  forall st : State,
    isPlaying st = true ->
    synthReady st = true ->
    pending st = [] ->
    currentNoteIndex st = 0%nat ->
    let N := length (currentNotes st) in
    let st' := run (playNotes st) (Spec.timersFire N) in
    exists cs,
      calls st' = calls st ++ cs ++ [updatePlaybackStatus Finished]
      /\ progressUpdates cs = map (fun k => Spec.percentage k N) (seq 1 N)
      /\ length (progressUpdates cs) = N
      /\ ((1 <= N)%nat -> (Z.of_nat N < 2 ^ 32)%Z ->
          last (progressUpdates cs) JSNumber.zero = JSNumber.of_Z 100)
      /\ ((N <= 100)%nat -> Spec.strictlyIncreasing (progressUpdates cs) = true)
      /\ isPlaying st' = false
      /\ pending st' = [].
Proof.
  intros st Hp Hs Hpe Hi N st'.
  destruct (loop_runs_to_completion N st Hp Hs Hpe) as [cs [E [P [F Q]]]].
  { rewrite Hi. reflexivity. }
  fold N in E, P, F, Q. fold (playNotes st) in E, F, Q. fold st' in E, F, Q.
  assert (P' : progressUpdates cs = map (fun k => Spec.percentage k N) (seq 1 N)).
  { rewrite P, Hi, <- seq_shift, map_map.
    apply map_ext. intro j. apply progressOf_percentage. }
  exists cs. repeat split; try assumption.
  - rewrite P'. now rewrite length_map, length_seq.
  - intros H1 H2. rewrite P'.
    destruct N as [| n]; [lia |].
    rewrite last_map_seq. unfold Spec.percentage.
    apply full_progress; assumption.
  - intro H. rewrite P'. now apply percentages_increasing.
Qed.

Lemma scheduler_progress_reports_witness :
  exists cs,
    calls (run (playNotes (mkState true false true
                             (parseABCNotation (str "cdz")) 0
                             (mkButtons true false false) [] []))
               (Spec.timersFire 3))
    = cs ++ [updatePlaybackStatus Finished]
    /\ progressUpdates cs
       = [JSNumber.of_Z 33; JSNumber.of_Z 67; JSNumber.of_Z 100]
    /\ last (progressUpdates cs) JSNumber.zero = JSNumber.of_Z 100
    /\ Spec.strictlyIncreasing (progressUpdates cs) = true.
Proof.
  destruct (scheduler_progress_reports
              (mkState true false true (parseABCNotation (str "cdz")) 0
                       (mkButtons true false false) [] [])
              eq_refl eq_refl eq_refl eq_refl)
    as [cs [E [P [L [H100 [Hinc _]]]]]].
  exists cs. split; [exact E |]. split; [exact P |]. split.
  - apply H100; vm_compute; [lia | reflexivity].
  - apply Hinc. vm_compute. lia.
Defined.

(** C6 as stated fails for a tune of 101 notes: the run reports 101
    percentages and finishes, but the 50th and the 51st are both 50. *)
Lemma progress_not_strictly_increasing_counterexample :
  length (parseABCNotation (repeat 99%N 101)) = 101%nat
  /\ last (calls (run freshPage
                    (ClickPlay (Some (repeat 99%N 101)) :: Resume 0
                       :: Spec.timersFire 101)))
          triggerRelease
     = updatePlaybackStatus Finished
  /\ nth 49 (progressUpdates
               (calls (run freshPage
                         (ClickPlay (Some (repeat 99%N 101)) :: Resume 0
                            :: Spec.timersFire 101)))) JSNumber.zero
     = JSNumber.of_Z 50
  /\ nth 50 (progressUpdates
               (calls (run freshPage
                         (ClickPlay (Some (repeat 99%N 101)) :: Resume 0
                            :: Spec.timersFire 101)))) JSNumber.zero
     = JSNumber.of_Z 50
  /\ Spec.strictlyIncreasing
       (progressUpdates
          (calls (run freshPage
                    (ClickPlay (Some (repeat 99%N 101)) :: Resume 0
                       :: Spec.timersFire 101))))
     = false.
Proof. repeat split; vm_compute; reflexivity. Qed.

(** The literal 0.4 is 4/10 rounded to binary64. *)
Example baseDuration_value :
  baseDuration = JSNumber.div (JSNumber.of_Z 4) (JSNumber.of_Z 10).
Proof. vm_compute. reflexivity. Qed.

(** The rounding is done on binary64 values: 29/200*100 is just below
    14.5 there, so the 29th of 200 updates is 14. *)
Example percentage_29_of_200 : Spec.percentage 29 200 = JSNumber.of_Z 14.
Proof. vm_compute. reflexivity. Qed.

Lemma eqb_neq (s u : jsstring) : s <> u -> JSString.eqb s u = false.
Proof.
  intro H. unfold JSString.eqb.
  destruct (list_eq_dec N.eq_dec s u); [contradiction | reflexivity].
Qed.

(** [playAudio] never looks at [isPlaying]: with music to play and the
    audio context running, it parks one more loop whatever the state. *)
Lemma playAudio_has_no_guard (st : State) (text : jsstring) :
  text <> [] ->
  text <> placeholder ->
  contextSuspended st = false ->
  synthReady st = true ->
  pending (playAudio (Some text) st)
  = pending st ++ [AwaitTimeout (length (parseABCNotation text))]
  /\ isPlaying (playAudio (Some text) st) = true.
Proof.
  intros Hne Hph Hsu Hsy. unfold playAudio.
  destruct text as [| c text]; [contradiction |].
  rewrite (eqb_neq _ _ Hph), Hsu. simpl orb. cbv iota.
  unfold playAudio_start. simpl currentNotes.
  pose proof (parse_nonempty (c :: text)) as Hnotes.
  destruct (parseABCNotation (c :: text)) as [| note notes] eqn:Hparse;
    [contradiction |].
  simpl Nat.eqb. cbv iota. unfold playNotes.
  match goal with
  | |- context [ loopTurn ?N ?s ] =>
      destruct (loopTurn_reports N s note) as [cs [E _]];
      [reflexivity | exact Hsy | simpl; lia | reflexivity |]
  end.
  rewrite E. simpl. split; reflexivity.
Qed.

(** The same happens through the buttons after a pause: the loop parked on
    its timer is still there when Play is clicked again, and it goes on
    once [isPlaying] is true again. *)
Lemma play_after_pause_keeps_parked_loop :
  pending (run freshPage
             [ClickPlay (Some (str "cdef")); Resume 0;
              ClickPause; ClickPlay (Some (str "cdef"))])
  = [AwaitTimeout 4; AwaitTimeout 4]
  /\ triggers (calls (run freshPage
                        [ClickPlay (Some (str "cdef")); Resume 0;
                         ClickPause; ClickPlay (Some (str "cdef"));
                         Resume 0; Resume 0; Resume 0; Resume 0; Resume 0]))
     = [72; 72; 74; 76; 77]%Z.
Proof. split; vm_compute; reflexivity. Qed.

(** C9 on the code.  Two clicks on Play on a fresh page, both taken before
    [Tone.start()] has resolved (the button is disabled only after that
    [await]): each activation goes on to start its own loop.  Two loops
    are parked at once while [isPlaying], the first note reaches the
    synthesizer twice, and the two loops then share one index. *)
Theorem reentrant_play_runs_two_loops :
  pending (run freshPage
             [ClickPlay (Some (str "cdef")); ClickPlay (Some (str "cdef"));
              Resume 0; Resume 0])
  = [AwaitTimeout 4; AwaitTimeout 4]
  /\ isPlaying (run freshPage
                  [ClickPlay (Some (str "cdef")); ClickPlay (Some (str "cdef"));
                   Resume 0; Resume 0]) = true
  /\ triggers (calls (run freshPage
                        [ClickPlay (Some (str "cdef")); ClickPlay (Some (str "cdef"));
                         Resume 0; Resume 0]))
     = [72; 72]%Z
  /\ triggers (calls (run freshPage
                        [ClickPlay (Some (str "cdef")); ClickPlay (Some (str "cdef"));
                         Resume 0; Resume 0; Resume 0; Resume 0; Resume 0;
                         Resume 0; Resume 0]))
     = [72; 72; 74; 76; 77]%Z
  /\ triggers (calls (run freshPage
                        (ClickPlay (Some (str "cdef")) :: Resume 0
                           :: Spec.timersFire 4)))
     = [72; 74; 76; 77]%Z.
Proof. repeat split; vm_compute; reflexivity. Qed.

End Scheduler.

(* ================================================================== *)
(** * Accidental markers *)
(* ================================================================== *)

Section Accidentals.

Import Spec.

Lemma noteLetter_range (c : char) :
  isNoteLetter c = true -> (65 <= c <= 71 \/ 97 <= c <= 103)%N.
Proof.
  unfold isNoteLetter. intro H.
  apply orb_prop in H as [H | H]; apply andb_prop in H as [H1 H2];
    apply N.leb_le in H1, H2; lia.
Qed.

(** Decide a character-class test on a character of known range. *)
Ltac class_false :=
  repeat match goal with
         | |- context [ (?a =? ?b)%N ] => destruct (N.eqb_spec a b); [lia |]
         | |- context [ (?a <=? ?b)%N ] => destruct (N.leb_spec a b)
         end; simpl; try reflexivity; try lia.

Lemma noteLetter_not_accidental (c : char) :
  isNoteLetter c = true -> isAccidental c = false.
Proof. intro H. apply noteLetter_range in H. unfold isAccidental. class_false. Qed.

Lemma noteLetter_not_octave (c : char) :
  isNoteLetter c = true -> isOctaveMark c = false.
Proof.
  intro H. apply noteLetter_range in H.
  unfold isOctaveMark, APOSTROPHE, COMMA. class_false.
Qed.

Lemma noteLetter_not_digit (c : char) :
  isNoteLetter c = true -> isDigit c = false.
Proof. intro H. apply noteLetter_range in H. unfold isDigit. class_false. Qed.

Lemma noteLetter_not_slash (c : char) :
  isNoteLetter c = true -> (c =? SLASH)%N = false.
Proof. intro H. apply noteLetter_range in H. unfold SLASH. class_false. Qed.

Lemma noteLetter_not_quote (c : char) :
  isNoteLetter c = true -> (c =? QUOTE)%N = false.
Proof. intro H. apply noteLetter_range in H. unfold QUOTE. class_false. Qed.

Lemma noteLetter_not_space (c : char) :
  isNoteLetter c = true -> JSString.isWhiteSpace c = false.
Proof.
  intro H. apply noteLetter_range in H. unfold JSString.isWhiteSpace. class_false.
Qed.

Lemma accidental_not_colon (c : char) :
  isAccidental c = true -> (c =? COLON)%N = false.
Proof.
  unfold isAccidental, COLON. intro H.
  destruct (N.eqb_spec c 58) as [-> | _]; [discriminate H | reflexivity].
Qed.

(** The markers right after a note letter are skipped. *)
Lemma skipAccidentals_markers (m post : jsstring) :
  forallb isAccidental m = true ->
  Playback.skipAccidentals (m ++ post) = Playback.skipAccidentals post.
Proof.
  induction m as [| x m IH]; simpl; [reflexivity |].
  intro H. apply andb_prop in H as [Hx Hm]. rewrite Hx. auto.
Qed.

Lemma scanStep_markers (c : char) (m post : jsstring) :
  isNoteLetter c = true ->
  forallb isAccidental m = true ->
  Playback.scanStep c (m ++ post) = Playback.scanStep c post.
Proof.
  intros Hc Hm. unfold Playback.scanStep.
  rewrite (noteLetter_not_quote c Hc).
  destruct (isBarSymbol c) eqn:Hb.
  { apply noteLetter_range in Hc. unfold isBarSymbol, COLON in Hb.
    revert Hb. class_false. }
  destruct (c =? SPACE)%N eqn:Hsp.
  { apply noteLetter_range in Hc. apply N.eqb_eq in Hsp. unfold SPACE in Hsp. lia. }
  destruct (isDecoration c) eqn:Hd.
  { apply noteLetter_range in Hc. unfold isDecoration in Hd.
    revert Hd. class_false. }
  rewrite Hc. now rewrite skipAccidentals_markers.
Qed.

(** What a helper loop does before a note letter does not depend on what
    comes after that letter. *)
Lemma skipAccidentals_app (a : jsstring) (c : char) (X : jsstring) :
  isAccidental c = false ->
  Playback.skipAccidentals (a ++ c :: X) = Playback.skipAccidentals a ++ c :: X.
Proof.
  intro Hc. induction a as [| x a IH]; simpl.
  - now rewrite Hc.
  - destruct (isAccidental x); [exact IH | reflexivity].
Qed.

Lemma takeOctaves_app (a : jsstring) (c : char) (X : jsstring) :
  isOctaveMark c = false ->
  Playback.takeOctaves (a ++ c :: X)
  = (fst (Playback.takeOctaves a), snd (Playback.takeOctaves a) ++ c :: X).
Proof.
  intro Hc. induction a as [| x a IH]; simpl.
  - now rewrite Hc.
  - destruct (isOctaveMark x); [| reflexivity].
    rewrite IH. destruct (Playback.takeOctaves a). reflexivity.
Qed.

Lemma parseDuration_app (a : jsstring) (c : char) (X : jsstring) :
  isDigit c = false -> (c =? SLASH)%N = false ->
  Playback.parseDuration (a ++ c :: X)
  = (fst (Playback.parseDuration a), snd (Playback.parseDuration a) ++ c :: X).
Proof.
  intros Hd Hs. unfold Playback.parseDuration.
  destruct a as [| n a1]; simpl.
  - now rewrite Hd, Hs.
  - destruct (isDigit n) eqn:Hn.
    + destruct a1 as [| s a2]; simpl; [now rewrite Hs |].
      destruct (s =? SLASH)%N; [| reflexivity].
      destruct a2 as [| d a3]; simpl; [now rewrite Hd |].
      destruct (isDigit d); reflexivity.
    + destruct (n =? SLASH)%N; [| reflexivity].
      destruct a1 as [| d a2]; simpl; [now rewrite Hd |].
      destruct (isDigit d); reflexivity.
Qed.

Lemma skipToQuote_closed (a X : jsstring) :
  In QUOTE a ->
  List.tl (Playback.skipToQuote (a ++ X)) = List.tl (Playback.skipToQuote a) ++ X.
Proof.
  induction a as [| x a IH]; simpl; [intros [] |].
  intros [Hx | Hin].
  - subst x. rewrite N.eqb_refl. reflexivity.
  - destruct (x =? QUOTE)%N; [reflexivity | auto].
Qed.

Lemma skipToQuote_open (a : jsstring) (c : char) (X : jsstring) :
  ~ In QUOTE a -> (c =? QUOTE)%N = false ->
  (length (List.tl (Playback.skipToQuote (a ++ c :: X))) <= length X)%nat.
Proof.
  intros Hin Hc. induction a as [| x a IH]; simpl.
  - rewrite Hc. pose proof (suffix_length _ _ (skipToQuote_suffix X)).
    pose proof (suffix_length _ _ (suffix_tl (Playback.skipToQuote X))). lia.
  - destruct (N.eqb_spec x QUOTE) as [-> | _].
    + exfalso. apply Hin. now left.
    + apply IH. intro H. apply Hin. now right.
Qed.

(** A turn that starts before a note letter [c] and does not run through
    it inside an open chord annotation stops at or before [c], whatever
    follows [c]. *)
Lemma scanStep_app (p : char) (a : jsstring) (c : char) (X : jsstring) :
  isNoteLetter c = true ->
  (p =? QUOTE)%N = false \/ In QUOTE a ->
  Playback.scanStep p (a ++ c :: X)
  = (fst (Playback.scanStep p a), snd (Playback.scanStep p a) ++ c :: X).
Proof.
  intros Hc Hq. unfold Playback.scanStep.
  destruct (p =? QUOTE)%N.
  { destruct Hq as [Hq | Hq]; [discriminate |]. simpl.
    now rewrite skipToQuote_closed. }
  destruct (isBarSymbol p); [reflexivity |].
  destruct (p =? SPACE)%N; [reflexivity |].
  destruct (isDecoration p); [reflexivity |].
  destruct (isNoteLetter p).
  { rewrite skipAccidentals_app by now apply noteLetter_not_accidental.
    rewrite takeOctaves_app by now apply noteLetter_not_octave.
    destruct (Playback.takeOctaves (Playback.skipAccidentals a)) as [marks s2].
    simpl.
    rewrite parseDuration_app
      by (now apply noteLetter_not_digit || now apply noteLetter_not_slash).
    destruct (Playback.parseDuration s2). reflexivity. }
  destruct (p =? LOWER_Z)%N; [| reflexivity].
  rewrite parseDuration_app
    by (now apply noteLetter_not_digit || now apply noteLetter_not_slash).
  destruct (Playback.parseDuration a). reflexivity.
Qed.

(** The loop index never goes back. *)
Lemma loopIndices_lower (fuel len : nat) :
  forall sfx i,
    In i (loopIndices fuel len sfx) -> (len - length sfx <= i)%nat.
Proof.
  induction fuel as [| fuel IH]; intros sfx i Hin; [destruct Hin |].
  destruct sfx as [| c after]; [destruct Hin |].
  simpl in Hin. destruct Hin as [<- | Hin]; [simpl; lia |].
  apply IH in Hin. pose proof (scanStep_length c after). simpl. lia.
Qed.

(** The scanning loop gives the same events with and without markers
    after a note letter on which it dispatches. *)
Lemma scanLoop_markers (n : nat) :
  forall (pre : jsstring) (c : char) (m post : jsstring)
         (notes : list NoteEvent) (fuel fuel1 fuel2 len : nat),
    (length pre <= n)%nat ->
    isNoteLetter c = true ->
    forallb isAccidental m = true ->
    (length (pre ++ c :: post) <= len)%nat ->
    In (len - length (c :: post))%nat (loopIndices fuel len (pre ++ c :: post)) ->
    (length (pre ++ c :: m ++ post) <= fuel1)%nat ->
    (length (pre ++ c :: post) <= fuel2)%nat ->
    Playback.scanLoop fuel1 (pre ++ c :: m ++ post) notes
    = Playback.scanLoop fuel2 (pre ++ c :: post) notes.
Proof.
  induction n as [| n IH];
    intros pre c m post notes fuel fuel1 fuel2 len Hn Hc Hm Hlen Hin Hf1 Hf2.
  - destruct pre as [| p a]; [| simpl in Hn; lia].
    simpl in *.
    destruct fuel1 as [| fuel1]; [lia |]. destruct fuel2 as [| fuel2]; [lia |].
    simpl. rewrite (scanStep_markers c m post Hc Hm).
    pose proof (scanStep_length c post) as Hs.
    destruct (Playback.scanStep c post) as [ev sfx']. simpl in Hs.
    apply scanLoop_enough; rewrite ?length_app in *; simpl in *; lia.
  - destruct pre as [| p a].
    { apply (IH [] c m post notes fuel fuel1 fuel2 len); simpl; auto; lia. }
    simpl in Hn.
    destruct fuel as [| fuel]; [destruct Hin |].
    destruct fuel1 as [| fuel1]; [simpl in Hf1; lia |].
    destruct fuel2 as [| fuel2]; [simpl in Hf2; lia |].
    cbn [app loopIndices] in Hin. rewrite length_app in Hlen. simpl in Hlen.
    destruct Hin as [Hin | Hin].
    { simpl in Hin. rewrite length_app in Hin. simpl in Hin. lia. }
    assert (Hq : ((p =? QUOTE)%N = false \/ In QUOTE a)
                 \/ ((p =? QUOTE)%N = true /\ ~ In QUOTE a)).
    { destruct (p =? QUOTE)%N; [| now left; left].
      destruct (in_dec N.eq_dec QUOTE a); [left; now right | right; now split]. }
    destruct Hq as [Hq | [Hq Hno]].
    + cbn [app Playback.scanLoop].
      rewrite (scanStep_app p a c (m ++ post) Hc Hq).
      rewrite (scanStep_app p a c post Hc Hq) in Hin |- *.
      pose proof (scanStep_length p a) as Hs.
      destruct (Playback.scanStep p a) as [ev a']. simpl in Hs, Hin |- *.
      apply (IH a' c m post (push notes ev) fuel fuel1 fuel2 len);
        try assumption; rewrite ?length_app in *; simpl in *; lia.
    + exfalso. apply loopIndices_lower in Hin.
      unfold Playback.scanStep in Hin. rewrite Hq in Hin. simpl in Hin.
      pose proof (skipToQuote_open a c post Hno (noteLetter_not_quote c Hc)).
      lia.
Qed.

Lemma trimIsEmpty_with_letter (pre : jsstring) (c : char) (post : jsstring) :
  isNoteLetter c = true -> JSString.trimIsEmpty (pre ++ c :: post) = false.
Proof.
  intro Hc. unfold JSString.trimIsEmpty. rewrite forallb_app. simpl.
  rewrite (noteLetter_not_space c Hc). simpl. apply andb_false_r.
Qed.

(** Markers after a letter cannot turn a line into a header line. *)
Lemma isHeader_with_markers (pre : jsstring) (c : char) (m post : jsstring) :
  forallb isAccidental m = true ->
  isHeader (pre ++ c :: post) = false ->
  isHeader (pre ++ c :: m ++ post) = false.
Proof.
  intros Hm Hh.
  destruct pre as [| p [| q pre]]; simpl in *; try exact Hh.
  destruct m as [| x m]; simpl in *; [exact Hh |].
  apply andb_prop in Hm as [Hx _].
  rewrite (accidental_not_colon x Hx). apply andb_false_r.
Qed.

(** The body of the loop over the lines, on such a line. *)
Lemma parseLine_markers (pre : jsstring) (c : char) (m post : jsstring)
      (notes : list NoteEvent) :
  isNoteLetter c = true ->
  forallb isAccidental m = true ->
  isHeader (pre ++ c :: post) = false ->
  dispatchesAt (pre ++ c :: post) (length pre) ->
  Playback.parseLine notes (pre ++ c :: m ++ post)
  = Playback.parseLine notes (pre ++ c :: post).
Proof.
  intros Hc Hm Hh Hd. unfold Playback.parseLine.
  rewrite Hh, (isHeader_with_markers pre c m post Hm Hh).
  rewrite !trimIsEmpty_with_letter by exact Hc.
  unfold dispatchesAt in Hd.
  apply (scanLoop_markers (length pre) pre c m post notes
           (length (pre ++ c :: post)) _ _ (length (pre ++ c :: post)));
    auto.
  replace (length (pre ++ c :: post) - length (c :: post))%nat with (length pre)
    by (rewrite length_app; lia).
  exact Hd.
Qed.

Lemma split_nonempty (s : jsstring) : JSString.split s <> [].
Proof.
  destruct s as [| c s]; simpl; [discriminate |].
  destruct (c =? JSString.LF)%N; [discriminate |].
  destruct (JSString.split s); discriminate.
Qed.

Lemma split_app_LF (a b : jsstring) :
  JSString.split (a ++ JSString.LF :: b) = JSString.split a ++ JSString.split b.
Proof.
  induction a as [| x a IH]; simpl; [reflexivity |].
  destruct (x =? JSString.LF)%N; [now rewrite IH |].
  rewrite IH. pose proof (split_nonempty a) as Hne.
  destruct (JSString.split a); [contradiction | reflexivity].
Qed.

Lemma split_one_line (l : jsstring) :
  ~ In JSString.LF l -> JSString.split l = [l].
Proof.
  induction l as [| x l IH]; simpl; intro Hno; [reflexivity |].
  destruct (N.eqb_spec x JSString.LF) as [-> | _].
  - exfalso. apply Hno. now left.
  - rewrite IH; [reflexivity |]. intro H. apply Hno. now right.
Qed.

Lemma split_join (ls : list jsstring) :
  ls <> [] -> JSString.split (JSString.join ls) = flat_map JSString.split ls.
Proof.
  induction ls as [| l ls IH]; intro Hne; [contradiction |].
  destruct ls as [| l2 ls].
  - simpl. now rewrite app_nil_r.
  - change (JSString.join (l :: l2 :: ls))
      with (l ++ JSString.LF :: JSString.join (l2 :: ls)).
    rewrite split_app_LF, IH by discriminate. reflexivity.
Qed.

Lemma fold_parseLine_markers (ls1 ls2 : list jsstring) (l l' : jsstring) :
  (forall notes, Playback.parseLine notes l' = Playback.parseLine notes l) ->
  fold_left Playback.parseLine (ls1 ++ l' :: ls2) []
  = fold_left Playback.parseLine (ls1 ++ l :: ls2) [].
Proof.
  intro H. rewrite !fold_left_app. simpl. now rewrite H.
Qed.

(** C8, as the code has it.  Take any tune, given by its lines, and in one
    line a note letter on which the scanner dispatches (a letter that
    starts a note token), the line not being a header line.  Accidental
    markers written right after that letter, in any number, leave the
    parsed sequence as it is without them. *)
Theorem accidentals_leave_events_unchanged :
  forall (before after : list jsstring) (pre post m : jsstring) (c : char),
    isNoteLetter c = true ->
    forallb isAccidental m = true ->
    ~ In JSString.LF pre ->
    ~ In JSString.LF post ->
    isHeader (pre ++ c :: post) = false ->
    dispatchesAt (pre ++ c :: post) (length pre) ->
    Playback.parseABCNotation
      (JSString.join (before ++ (pre ++ c :: m ++ post) :: after))
    = Playback.parseABCNotation
        (JSString.join (before ++ (pre ++ c :: post) :: after)).
Proof.
  intros before after pre post m c Hc Hm Hpre Hpost Hh Hd.
  assert (HcLF : c <> JSString.LF).
  { apply noteLetter_range in Hc. unfold JSString.LF. lia. }
  assert (HmLF : ~ In JSString.LF m).
  { intro H. rewrite forallb_forall in Hm. apply Hm in H. discriminate H. }
  assert (Hl : ~ In JSString.LF (pre ++ c :: post)).
  { intro H. apply in_app_or in H as [H | [H | H]]; auto. }
  assert (Hl' : ~ In JSString.LF (pre ++ c :: m ++ post)).
  { intro H. apply in_app_or in H as [H | [H | H]]; auto.
    apply in_app_or in H as [H | H]; auto. }
  unfold Playback.parseABCNotation.
  rewrite !split_join by (destruct before; discriminate).
  rewrite !flat_map_app. simpl flat_map.
  rewrite (split_one_line _ Hl), (split_one_line _ Hl'). simpl app.
  rewrite (fold_parseLine_markers _ _ (pre ++ c :: post) (pre ++ c :: m ++ post));
    [reflexivity |].
  intro notes. now apply parseLine_markers.
Qed.

Lemma accidentals_leave_events_unchanged_witness :
  Playback.parseABCNotation
    (JSString.join ([str "X:1"; str "K:G"]
                      ++ (str "A2 " ++ 66%N :: str "^_=" ++ str ",/ c") :: [str "z"]))
  = Playback.parseABCNotation
      (JSString.join ([str "X:1"; str "K:G"]
                        ++ (str "A2 " ++ 66%N :: str ",/ c") :: [str "z"])).
Proof.
  apply (accidentals_leave_events_unchanged
           [str "X:1"; str "K:G"] [str "z"] (str "A2 ") (str ",/ c") (str "^_=") 66%N).
  - reflexivity.
  - reflexivity.
  - simpl. intros [H | [H | [H | []]]]; discriminate H.
  - simpl. intros [H | [H | [H | [H | []]]]]; discriminate H.
  - reflexivity.
  - vm_compute. right. right. left. reflexivity.
Defined.

(** C8 as stated fails on the first letter of a line when a colon
    follows the markers: B^:c holds the notes B and c, while without the
    marker B:c is a header line and the parse falls back to the default
    sequence. *)
Lemma accidental_before_colon_counterexample :
  map pitch (Playback.parseABCNotation (str "B^:c")) = [71; 72]%Z
  /\ Playback.parseABCNotation (str "B:c") = Playback.getDefaultNotes
  /\ Playback.parseABCNotation (str "B^:c") <> Playback.parseABCNotation (str "B:c").
Proof.
  split; [vm_compute; reflexivity |].
  split; [vm_compute; reflexivity |].
  vm_compute. discriminate.
Qed.

End Accidentals.

(* ================================================================== *)
(** * More on the parser: lines, ranges, bounds *)
(* ================================================================== *)

Section ParserLines.

Import Notion.
Local Open Scope Z_scope.

Lemma push_acc (notes : list NoteEvent) (ev : option NoteEvent) :
  push notes ev = notes ++ push [] ev.
Proof. destruct ev; simpl; [reflexivity | now rewrite app_nil_r]. Qed.

(** The events a line pushes do not depend on what [notes] holds. *)
Lemma scanLoop_acc (fuel : nat) :
  forall sfx notes,
    Playback.scanLoop fuel sfx notes = notes ++ Playback.scanLoop fuel sfx [].
Proof.
  induction fuel as [| fuel IH]; intros sfx notes; simpl.
  - now rewrite app_nil_r.
  - destruct sfx as [| c after]; [now rewrite app_nil_r |].
    destruct (Playback.scanStep c after) as [ev sfx'].
    rewrite (IH sfx' (push notes ev)), (IH sfx' (push [] ev)).
    rewrite (push_acc notes ev). now rewrite app_assoc.
Qed.

Lemma parseLine_acc (notes : list NoteEvent) (line : jsstring) :
  Playback.parseLine notes line = notes ++ Playback.parseLine [] line.
Proof.
  unfold Playback.parseLine.
  destruct (isHeader line); [now rewrite app_nil_r |].
  destruct (JSString.trimIsEmpty line); [now rewrite app_nil_r |].
  apply scanLoop_acc.
Qed.

Lemma fold_parseLine_acc (ls : list jsstring) :
  forall notes,
    fold_left Playback.parseLine ls notes
    = notes ++ fold_left Playback.parseLine ls [].
Proof.
  induction ls as [| l ls IH]; intro notes; simpl; [now rewrite app_nil_r |].
  rewrite (IH (Playback.parseLine notes l)), (IH (Playback.parseLine [] l)).
  rewrite (parseLine_acc notes l). now rewrite app_assoc.
Qed.

Lemma scannedNotes_app (a b : jsstring) :
  scannedNotes (a ++ JSString.LF :: b) = scannedNotes a ++ scannedNotes b.
Proof.
  unfold scannedNotes. rewrite split_app_LF, fold_left_app.
  apply fold_parseLine_acc.
Qed.

Lemma parse_of_scanned (s : jsstring) :
  Playback.parseABCNotation s
  = match scannedNotes s with
    | [] => Playback.getDefaultNotes
    | _ :: _ => scannedNotes s
    end.
Proof.
  unfold Playback.parseABCNotation, scannedNotes.
  destruct (fold_left Playback.parseLine (JSString.split s) []); reflexivity.
Qed.

(** X1. The events of the lines are concatenated in the order of the
    lines: what the scanner collects on [a], a line feed and [b] is what it
    collects on [a] followed by what it collects on [b]; the result of the
    parse is that collection, or the default notes when it is empty. *)
Theorem lines_concatenate :
  (forall a b : jsstring,
      scannedNotes (a ++ JSString.LF :: b) = scannedNotes a ++ scannedNotes b)
  /\ (forall s : jsstring,
         Playback.parseABCNotation s
         = match scannedNotes s with
           | [] => Playback.getDefaultNotes
           | _ :: _ => scannedNotes s
           end).
Proof. split; [exact scannedNotes_app | exact parse_of_scanned]. Qed.

Lemma scannedNotes_silent_line (h : jsstring) :
  ~ In JSString.LF h ->
  isHeader h || JSString.trimIsEmpty h = true ->
  scannedNotes h = [].
Proof.
  intros Hno Hh. unfold scannedNotes. rewrite (split_one_line h Hno). simpl.
  unfold Playback.parseLine.
  destruct (isHeader h); [reflexivity |].
  simpl in Hh. now rewrite Hh.
Qed.

Lemma parse_same_scanned (s s' : jsstring) :
  scannedNotes s = scannedNotes s' ->
  Playback.parseABCNotation s = Playback.parseABCNotation s'.
Proof. intro H. now rewrite !parse_of_scanned, H. Qed.

(** X2. A header line or a blank line can be added or removed anywhere in
    a tune (between two lines, as first line, as last line) without
    changing the result of the parse. *)
Theorem silent_lines_do_not_matter :
  forall h : jsstring,
    ~ In JSString.LF h ->
    isHeader h || JSString.trimIsEmpty h = true ->
    (forall a b, Playback.parseABCNotation (a ++ JSString.LF :: h ++ JSString.LF :: b)
                 = Playback.parseABCNotation (a ++ JSString.LF :: b))
    /\ (forall b, Playback.parseABCNotation (h ++ JSString.LF :: b)
                  = Playback.parseABCNotation b)
    /\ (forall a, Playback.parseABCNotation (a ++ JSString.LF :: h)
                  = Playback.parseABCNotation a).
Proof.
  intros h Hno Hh. pose proof (scannedNotes_silent_line h Hno Hh) as E.
  repeat split; intros; apply parse_same_scanned;
    rewrite ?scannedNotes_app, ?E, ?app_nil_r; reflexivity.
Qed.

Lemma silent_lines_do_not_matter_witness :
  Playback.parseABCNotation (str "cd" ++ JSString.LF :: str "K:G" ++ JSString.LF :: str "ef")
  = Playback.parseABCNotation (str "cd" ++ JSString.LF :: str "ef").
Proof.
  assert (Hno : ~ In JSString.LF (str "K:G"))
    by (simpl; intros [H | [H | [H | []]]]; discriminate H).
  exact (proj1 (silent_lines_do_not_matter (str "K:G") Hno eq_refl) (str "cd") (str "ef")).
Defined.

(** What a turn of the loop can push: a note with the pitch the mapper
    gives, or a rest of pitch 0; and only on a note letter or on z. *)
Lemma scanStep_event (c : char) (after : jsstring) (ev : NoteEvent) :
  fst (Playback.scanStep c after) = Some ev ->
  startsEvent c = true
  /\ ((rest ev = false /\ exists marks, pitch ev = Playback.noteToMIDI (c :: marks))
      \/ (rest ev = true /\ pitch ev = 0)).
Proof.
  unfold Playback.scanStep, startsEvent.
  destruct (c =? QUOTE)%N; [discriminate |].
  destruct (isBarSymbol c); [discriminate |].
  destruct (c =? SPACE)%N; [discriminate |].
  destruct (isDecoration c); [discriminate |].
  destruct (isNoteLetter c).
  - destruct (Playback.takeOctaves (Playback.skipAccidentals after)) as [marks s2].
    destruct (Playback.parseDuration s2) as [d s3]. simpl.
    intros [= <-]. split; [reflexivity |]. left. simpl. split; [reflexivity |].
    now exists marks.
  - destruct (c =? LOWER_Z)%N; [| discriminate].
    destruct (Playback.parseDuration after) as [d s3]. simpl.
    intros [= <-]. split; [reflexivity |]. right. split; reflexivity.
Qed.

Lemma scanLoop_events (P : NoteEvent -> Prop) (fuel : nat) :
  (forall c after ev, fst (Playback.scanStep c after) = Some ev -> P ev) ->
  forall sfx notes,
    Forall P notes -> Forall P (Playback.scanLoop fuel sfx notes).
Proof.
  intro HP. induction fuel as [| fuel IH]; intros sfx notes Hn; [exact Hn |].
  destruct sfx as [| c after]; [exact Hn |].
  simpl. pose proof (HP c after) as Hc.
  destruct (Playback.scanStep c after) as [ev sfx']. simpl in Hc.
  apply IH. destruct ev as [e |]; simpl; [| exact Hn].
  apply Forall_app. split; [exact Hn |]. constructor; [now apply Hc | constructor].
Qed.

Lemma parse_events (P : NoteEvent -> Prop) (s : jsstring) :
  Forall P Playback.getDefaultNotes ->
  (forall c after ev, fst (Playback.scanStep c after) = Some ev -> P ev) ->
  Forall P (Playback.parseABCNotation s).
Proof.
  intros Hd HP. unfold Playback.parseABCNotation.
  assert (H : forall ls notes, Forall P notes ->
                Forall P (fold_left Playback.parseLine ls notes)).
  { induction ls as [| l ls IH]; intros notes Hn; [exact Hn |].
    simpl. apply IH. unfold Playback.parseLine.
    destruct (isHeader l); [exact Hn |].
    destruct (JSString.trimIsEmpty l); [exact Hn |].
    now apply scanLoop_events. }
  specialize (H (JSString.split s) [] (Forall_nil _)).
  destruct (fold_left Playback.parseLine (JSString.split s) []); [exact Hd | exact H].
Qed.

Lemma noteToMIDI_range (note : jsstring) :
  0 <= Playback.noteToMIDI note <= 127.
Proof. rewrite noteToMIDI_unfold. lia. Qed.

(** X3. Every event of every parse has a pitch between 0 and 127, and
    every rest has pitch 0. *)
Theorem events_in_midi_range :
  forall (s : jsstring) (ev : NoteEvent),
    In ev (Playback.parseABCNotation s) ->
    0 <= pitch ev <= 127 /\ (rest ev = true -> pitch ev = 0).
Proof.
  intros s ev Hin.
  assert (H : Forall (fun e => 0 <= pitch e <= 127 /\ (rest e = true -> pitch e = 0))
                     (Playback.parseABCNotation s)).
  2: { rewrite Forall_forall in H. now apply H. }
  apply parse_events.
  - apply Forall_forall. intros e He. simpl in He.
    repeat (destruct He as [<- | He]; [simpl; split; [lia | discriminate] |]).
    destruct He.
  - intros c after e He. apply scanStep_event in He as [_ [[Hr [marks Hp]] | [Hr Hp]]].
    + rewrite Hp, Hr. split; [apply noteToMIDI_range | discriminate].
    + rewrite Hp. split; [lia | reflexivity].
Qed.

Lemma events_in_midi_range_witness :
  0 <= 0 <= 127 /\ (true = true -> 0 = 0).
Proof.
  apply (events_in_midi_range (str "D,,,,,,z2")
           (mkNote 0 (JSNumber.of_Z 2) true)).
  vm_compute. right. left. reflexivity.
Defined.

End ParserLines.

Section ParserBounds.

Import Notion Spec.
Local Open Scope nat_scope.

Lemma starts_suffix (s l : jsstring) : suffix s l -> starts s <= starts l.
Proof.
  intros [p ->]. unfold starts. rewrite filter_app, length_app. lia.
Qed.

Lemma scanLoop_count (fuel : nat) :
  forall sfx notes,
    length (Playback.scanLoop fuel sfx notes) <= length notes + starts sfx.
Proof.
  induction fuel as [| fuel IH]; intros sfx notes; simpl; [lia |].
  destruct sfx as [| c after]; [lia |].
  pose proof (scanStep_event c after) as Hev.
  pose proof (starts_suffix _ _ (proj1 (scanStep_sound c after))) as Hs.
  destruct (Playback.scanStep c after) as [ev sfx']. simpl in Hev, Hs.
  specialize (IH sfx' (push notes ev)).
  unfold starts in *. simpl.
  destruct ev as [e |]; simpl in IH.
  - destruct (Hev e eq_refl) as [Hc _]. rewrite Hc. simpl.
    rewrite length_app in IH. simpl in IH. lia.
  - destruct (startsEvent c); simpl; lia.
Qed.

Lemma starts_app (a b : jsstring) : starts (a ++ b) = starts a + starts b.
Proof. unfold starts. now rewrite filter_app, length_app. Qed.

Lemma split_starts (s : jsstring) :
  starts (concat (JSString.split s)) = starts s.
Proof.
  induction s as [| c s IH]; [reflexivity |].
  simpl JSString.split.
  destruct (N.eqb_spec c JSString.LF) as [-> | Hne].
  - simpl concat. rewrite IH. reflexivity.
  - pose proof (split_nonempty s) as Hs.
    destruct (JSString.split s) as [| l ls]; [contradiction |].
    simpl concat in *. unfold starts in *. simpl.
    destruct (startsEvent c); simpl; now rewrite IH.
Qed.

Lemma fold_parseLine_count (ls : list jsstring) :
  forall notes,
    length (fold_left Playback.parseLine ls notes)
    <= length notes + starts (concat ls).
Proof.
  induction ls as [| l ls IH]; intro notes; simpl; [lia |].
  rewrite starts_app. specialize (IH (Playback.parseLine notes l)).
  assert (length (Playback.parseLine notes l) <= length notes + starts l).
  { unfold Playback.parseLine.
    destruct (isHeader l); [lia |].
    destruct (JSString.trimIsEmpty l); [lia |].
    apply scanLoop_count. }
  lia.
Qed.

(** X4. The scanner collects at most one event per note letter or z of
    the input; an input with none of these characters parses to the default
    notes. *)
Theorem events_bounded_by_letters :
  forall s : jsstring,
    length (scannedNotes s) <= length (filter startsEvent s)
    /\ (filter startsEvent s = [] ->
        Playback.parseABCNotation s = Playback.getDefaultNotes).
Proof.
  intro s.
  assert (H : length (scannedNotes s) <= starts s).
  { unfold scannedNotes.
    pose proof (fold_parseLine_count (JSString.split s) []) as H.
    rewrite split_starts in H. exact H. }
  split; [exact H |].
  intro E. unfold starts in H. rewrite E in H. rewrite parse_of_scanned.
  destruct (scannedNotes s); [reflexivity | simpl in H; lia].
Qed.

Lemma events_bounded_by_letters_witness :
  Playback.parseABCNotation (str "|: 123 :| x y") = Playback.getDefaultNotes.
Proof.
  apply (proj2 (events_bounded_by_letters (str "|: 123 :| x y"))).
  reflexivity.
Defined.

End ParserBounds.

Section OctaveMarks.

Local Open Scope Z_scope.







End OctaveMarks.

(* ================================================================== *)
(** * More on the scheduler: traces and invariants *)
(* ================================================================== *)

Section SchedulerTraces.

Import Playback Notion.

Lemma loopTurn_exact (N : nat) (st : State) (note : NoteEvent) :
  isPlaying st = true ->
  synthReady st = true ->
  (currentNoteIndex st < N)%nat ->
  nth_error (currentNotes st) (currentNoteIndex st) = Some note ->
  loopTurn N st
  = mkState true (contextSuspended st) true (currentNotes st)
            (currentNoteIndex st) (buttons st)
            (pending st ++ [AwaitTimeout N])
            (calls st
               ++ (if audible note
                   then [triggerAttackRelease
                           (pitch note) (JSNumber.mul baseDuration (duration note))]
                   else [])
               ++ [updatePlaybackStatus
                     (Progress (progressOf (currentNoteIndex st) N))]).
Proof.
  destruct st as [sr su ip ns i b pe cs]. simpl. intros -> -> Hi Hn.
  unfold loopTurn, audible. simpl.
  apply Nat.ltb_lt in Hi. rewrite Hi, Hn. simpl.
  destruct (negb (rest note) && (0 <? pitch note)%Z); simpl.
  - unfold suspend, call, set_pending. simpl. now rewrite <- app_assoc.
  - reflexivity.
Qed.

Lemma skipn_nth_error {A : Type} (l : list A) :
  forall i x, nth_error l i = Some x -> skipn i l = x :: skipn (S i) l.
Proof.
  induction l as [| y l IH]; intros [| i] x H; simpl in *; try discriminate.
  - now injection H as ->.
  - now apply IH.
Qed.

Lemma loop_trace (k : nat) :
  forall st : State,
    isPlaying st = true ->
    synthReady st = true ->
    pending st = [] ->
    (currentNoteIndex st + k = length (currentNotes st))%nat ->
    let N := length (currentNotes st) in
    let st' := run (loopTurn N st) (Spec.timersFire k) in
    calls st'
    = calls st ++ turnCalls N (currentNoteIndex st)
                            (skipn (currentNoteIndex st) (currentNotes st))
    /\ currentNoteIndex st' = N
    /\ currentNotes st' = currentNotes st
    /\ buttons st' = mkButtons false true true.
Proof.
  induction k as [| k IH]; intros st Hp Hs Hpe Hi N st'.
  - subst st' N. rewrite Nat.add_0_r in Hi.
    destruct st as [sr su ip ns i b pe cs]. simpl in *. subst.
    rewrite skipn_all. unfold loopTurn. simpl. rewrite Nat.ltb_irrefl. simpl.
    repeat split.
  - destruct (nth_error (currentNotes st) (currentNoteIndex st)) as [note |] eqn:Hn.
    2: { apply nth_error_None in Hn. lia. }
    pose proof (loopTurn_exact N st note Hp Hs ltac:(subst N; lia) Hn) as E1.
    set (cs1 := (if audible note
                 then [triggerAttackRelease
                         (pitch note) (JSNumber.mul baseDuration (duration note))]
                 else [])
                ++ [updatePlaybackStatus
                      (Progress (progressOf (currentNoteIndex st) N))]) in *.
    set (st2 := mkState true (contextSuspended st) true (currentNotes st)
                        (currentNoteIndex st + 1) (buttons st) [] (calls st ++ cs1)).
    assert (Estep : step (loopTurn N st) (Resume 0) = loopTurn N st2).
    { rewrite E1. unfold step. simpl. rewrite Hpe. reflexivity. }
    assert (Erun : st' = run (loopTurn N st2) (Spec.timersFire k)).
    { subst st'. unfold run, Spec.timersFire. cbn [repeat fold_left].
      now rewrite Estep. }
    destruct (IH st2 eq_refl eq_refl eq_refl) as [E2 [I2 [N2 B2]]].
    { subst st2. simpl. lia. }
    change (length (currentNotes st2)) with N in E2, I2, N2, B2.
    rewrite <- Erun in E2, I2, N2, B2.
    repeat split; try assumption.
    rewrite E2. subst st2. simpl.
    rewrite (skipn_nth_error _ _ _ Hn). simpl turnCalls.
    rewrite Nat.add_1_r. subst cs1. now rewrite <- !app_assoc.
Qed.

Lemma triggerCalls_turnCalls (N : nat) (notes : list NoteEvent) :
  forall i,
    triggerCalls (turnCalls N i notes)
    = map (fun ev => (pitch ev, JSNumber.mul baseDuration (duration ev)))
          (filter audible notes).
Proof.
  induction notes as [| note notes IH]; intro i; [reflexivity |].
  simpl. destruct (audible note); simpl; now rewrite IH.
Qed.

(** X6. A run of [playNotes] that is left alone makes, for each event in
    the order of the sequence, the trigger call (for an audible event only:
    not a rest, pitch above 0) and then the progress report, and ends with
    Finished.  So the synthesizer receives exactly the audible events, in
    order, each for 0.4 times its duration; the index ends at the length
    and only the play button is enabled. *)
Theorem complete_run_trace :
  forall st : State,
    isPlaying st = true ->
    synthReady st = true ->
    pending st = [] ->
    currentNoteIndex st = 0%nat ->
    let N := length (currentNotes st) in
    let st' := run (playNotes st) (Spec.timersFire N) in
    calls st' = calls st ++ turnCalls N 0 (currentNotes st)
    /\ triggerCalls (turnCalls N 0 (currentNotes st))
       = map (fun ev => (pitch ev, JSNumber.mul baseDuration (duration ev)))
             (filter audible (currentNotes st))
    /\ currentNoteIndex st' = N
    /\ buttons st' = mkButtons false true true.
Proof.
  intros st Hp Hs Hpe Hi N st'.
  destruct (loop_trace N st Hp Hs Hpe) as [E [I [_ B]]].
  { rewrite Hi. reflexivity. }
  rewrite Hi in E. simpl skipn in E.
  repeat split; try assumption. apply triggerCalls_turnCalls.
Qed.

Lemma complete_run_trace_witness :
  triggerCalls
    (calls (run (playNotes (mkState true false true
                              (parseABCNotation (str "c2zD,,,,,,e/")) 0
                              (mkButtons true false false) [] []))
                (Spec.timersFire 4)))
  = [(72%Z, JSNumber.mul baseDuration (JSNumber.of_Z 2));
     (76%Z, JSNumber.mul baseDuration
              (JSNumber.div (JSNumber.of_Z 1) (JSNumber.of_Z 2)))].
Proof.
  pose proof (complete_run_trace
                (mkState true false true (parseABCNotation (str "c2zD,,,,,,e/")) 0
                         (mkButtons true false false) [] [])
                eq_refl eq_refl eq_refl eq_refl) as [E [T _]].
  etransitivity; [exact (f_equal triggerCalls E) |].
  etransitivity; [exact T |].
  vm_compute. reflexivity.
Defined.

End SchedulerTraces.

Section SchedulerInvariants.

Import Playback Notion.

Lemma run_invariant (P : State -> Prop) :
  (forall st e, P st -> P (step st e)) ->
  forall es st, P st -> P (run st es).
Proof.
  intros Hstep es. unfold run.
  induction es as [| e es IH]; intros st H; simpl; [exact H |].
  apply IH, Hstep, H.
Qed.

(** Split a state into its variables and open the scheduler's functions. *)
Ltac open_state st :=
  destruct st as [sr su ip ns i [b1 b2 b3] pe cs];
  unfold loopTurn, catchBlock, pauseAudio, stopAudio, suspend, call,
    set_pending, set_buttons, set_isPlaying, set_currentNoteIndex,
    set_currentNotes, set_contextSuspended in *;
  simpl in *.

Ltac split_tests :=
  repeat match goal with
         | |- context [ match nth_error ?l ?n with _ => _ end ] =>
             destruct (nth_error l n)
         | |- context [ if ?b then _ else _ ] => destruct b
         end;
  simpl in *.

(* ---- the error of an empty parse ---- *)

Lemma loopTurn_noValidNotes (N : nat) (st : State) :
  neverNoValidNotes st -> neverNoValidNotes (loopTurn N st).
Proof.
  unfold neverNoValidNotes. open_state st. intro H. split_tests;
    rewrite ?Forall_app; repeat split; try assumption; repeat constructor.
Qed.

Lemma playAudio_start_noValidNotes (text : jsstring) (st : State) :
  neverNoValidNotes st -> neverNoValidNotes (playAudio_start text st).
Proof.
  intro H. unfold playAudio_start. simpl currentNotes.
  pose proof (parse_nonempty text) as Hne.
  destruct (parseABCNotation text) as [| note notes]; [contradiction |].
  simpl Nat.eqb. cbv iota. unfold playNotes. apply loopTurn_noValidNotes.
  unfold neverNoValidNotes in *. simpl.
  apply Forall_app. split; [exact H | repeat constructor].
Qed.

Lemma step_noValidNotes (st : State) (e : Event) :
  neverNoValidNotes st -> neverNoValidNotes (step st e).
Proof.
  intro H. destruct e as [notation | | | k]; unfold step.
  - destruct (playBtn (buttons st)); [exact H |].
    unfold playAudio.
    assert (Herr : neverNoValidNotes (call (showError NoMusicToPlay) st)).
    { unfold neverNoValidNotes in *. simpl.
      apply Forall_app. split; [exact H | repeat constructor]. }
    destruct notation as [text |]; [| exact Herr].
    destruct ((length text =? 0)%nat || JSString.eqb text placeholder);
      [exact Herr |].
    destruct (contextSuspended st); [exact H |].
    now apply playAudio_start_noValidNotes.
  - destruct (pauseBtn (buttons st)); [exact H |].
    unfold neverNoValidNotes in *. open_state st. split_tests;
      rewrite ?Forall_app; repeat split; try assumption; repeat constructor.
  - destruct (stopBtn (buttons st)); [exact H |].
    unfold neverNoValidNotes in *. open_state st. split_tests;
      rewrite ?Forall_app; repeat split; try assumption; repeat constructor.
  - destruct (nth_error (pending st) k) as [[text | N] |]; [| | exact H].
    + apply playAudio_start_noValidNotes. exact H.
    + apply loopTurn_noValidNotes. exact H.
Qed.

(** X7. The error for a notation without valid notes is never shown, on
    any sequence of clicks and wake-ups: the parser never returns an empty
    sequence, so the branch of [playAudio] that tests for one is dead. *)
Theorem no_valid_notes_error_is_dead :
  forall (st : State) (es : list Event),
    Forall (fun c => isNoValidNotes c = false) (calls st) ->
    Forall (fun c => isNoValidNotes c = false) (calls (run st es)).
Proof.
  intros st es H.
  apply (run_invariant neverNoValidNotes step_noValidNotes es st H).
Qed.

Lemma no_valid_notes_error_is_dead_witness :
  Forall (fun c => isNoValidNotes c = false)
         (calls (run freshPage
                   [ClickPlay (Some (str "X:1")); Resume 0; Resume 0; ClickStop])).
Proof.
  apply (no_valid_notes_error_is_dead freshPage). constructor.
Defined.

(* ---- without a synthesizer ---- *)

Lemma loopTurn_silent (F : list Call) (N : nat) (st : State) :
  silent F st -> silent F (loopTurn N st).
Proof.
  unfold silent. open_state st. intros [-> H]. split_tests;
    rewrite ?filter_app; simpl; rewrite ?app_nil_r; split; try reflexivity;
    try assumption.
Qed.

Lemma playAudio_start_silent (F : list Call) (text : jsstring) (st : State) :
  silent F st -> silent F (playAudio_start text st).
Proof.
  intro H. unfold playAudio_start. simpl currentNotes.
  pose proof (parse_nonempty text) as Hne.
  destruct (parseABCNotation text) as [| note notes]; [contradiction |].
  simpl Nat.eqb. cbv iota. unfold playNotes. apply loopTurn_silent.
  unfold silent in *. simpl. destruct H as [H1 H2]. split; [exact H1 |].
  rewrite filter_app. simpl. now rewrite app_nil_r.
Qed.

Lemma step_silent (F : list Call) (st : State) (e : Event) :
  silent F st -> silent F (step st e).
Proof.
  intro H. destruct e as [notation | | | k]; unfold step.
  - destruct (playBtn (buttons st)); [exact H |].
    unfold playAudio.
    assert (Herr : silent F (call (showError NoMusicToPlay) st)).
    { unfold silent in *. simpl. destruct H as [H1 H2]. split; [exact H1 |].
      rewrite filter_app. simpl. now rewrite app_nil_r. }
    destruct notation as [text |]; [| exact Herr].
    destruct ((length text =? 0)%nat || JSString.eqb text placeholder);
      [exact Herr |].
    destruct (contextSuspended st); [exact H |].
    now apply playAudio_start_silent.
  - destruct (pauseBtn (buttons st)); [exact H |].
    unfold silent in *. open_state st. destruct H as [-> H]. now split.
  - destruct (stopBtn (buttons st)); [exact H |].
    unfold silent in *. open_state st. destruct H as [-> H]. now split.
  - destruct (nth_error (pending st) k) as [[text | N] |]; [| | exact H].
    + apply playAudio_start_silent. exact H.
    + apply loopTurn_silent. exact H.
Qed.

(** X8. When the synthesizer could not be constructed, no sequence of
    clicks and wake-ups ever makes a call on it: no trigger and no release
    is added to those made before. *)
Theorem no_synthesizer_no_call :
  forall (st : State) (es : list Event),
    synthReady st = false ->
    filter isSynthCall (calls (run st es)) = filter isSynthCall (calls st)
    /\ synthReady (run st es) = false.
Proof.
  intros st es H.
  pose proof (run_invariant (silent (filter isSynthCall (calls st)))
                (step_silent _) es st (conj H eq_refl)) as [H1 H2].
  now split.
Qed.

Lemma no_synthesizer_no_call_witness :
  filter isSynthCall
    (calls (run (mkState false false false [] 0 (mkButtons false true true) [] [])
                [ClickPlay (Some (str "zc")); ClickPause; Resume 0; ClickStop]))
  = [].
Proof.
  exact (proj1 (no_synthesizer_no_call
                  (mkState false false false [] 0 (mkButtons false true true) [] [])
                  [ClickPlay (Some (str "zc")); ClickPause; Resume 0; ClickStop]
                  eq_refl)).
Defined.

(* ---- the buttons ---- *)

Lemma loopTurn_buttons (N : nat) (st : State) :
  buttonsFollow st -> buttonsFollow (loopTurn N st).
Proof.
  unfold buttonsFollow. open_state st. intros [-> [-> ->]]. split_tests;
    repeat split.
Qed.

Lemma playAudio_start_buttons (text : jsstring) (st : State) :
  synthReady st = true -> buttonsFollow (playAudio_start text st).
Proof.
  intro H. unfold playAudio_start. simpl currentNotes.
  pose proof (parse_nonempty text) as Hne.
  destruct (parseABCNotation text) as [| note notes]; [contradiction |].
  simpl Nat.eqb. cbv iota. unfold playNotes. apply loopTurn_buttons.
  unfold buttonsFollow. simpl. now repeat split.
Qed.

Lemma step_buttons (st : State) (e : Event) :
  buttonsFollow st -> buttonsFollow (step st e).
Proof.
  intro H. destruct e as [notation | | | k]; unfold step.
  - destruct (playBtn (buttons st)); [exact H |].
    unfold playAudio.
    destruct notation as [text |]; [| exact H].
    destruct ((length text =? 0)%nat || JSString.eqb text placeholder);
      [exact H |].
    destruct (contextSuspended st); [exact H |].
    apply playAudio_start_buttons. apply H.
  - destruct (pauseBtn (buttons st)); [exact H |].
    unfold buttonsFollow in *. open_state st. destruct H as [-> _].
    simpl. now repeat split.
  - destruct (stopBtn (buttons st)); [exact H |].
    unfold buttonsFollow in *. open_state st. destruct H as [-> _].
    simpl. now repeat split.
  - destruct (nth_error (pending st) k) as [[text | N] |]; [| | exact H].
    + apply playAudio_start_buttons. apply H.
    + apply loopTurn_buttons.
      unfold buttonsFollow in *. destruct st. simpl in *. exact H.
Qed.

(** X9. With the synthesizer constructed, on any sequence of clicks and
    wake-ups the play button is disabled exactly while [isPlaying] holds and
    the pause button is enabled exactly then. *)
Theorem buttons_follow_isPlaying :
  forall (st : State) (es : list Event),
    synthReady st = true ->
    playBtn (buttons st) = isPlaying st ->
    pauseBtn (buttons st) = negb (isPlaying st) ->
    playBtn (buttons (run st es)) = isPlaying (run st es)
    /\ pauseBtn (buttons (run st es)) = negb (isPlaying (run st es)).
Proof.
  intros st es H1 H2 H3.
  pose proof (run_invariant buttonsFollow step_buttons es st
                (conj H1 (conj H2 H3))) as [_ H].
  exact H.
Qed.

Lemma buttons_follow_isPlaying_witness :
  playBtn (buttons (run freshPage
                      [ClickPlay (Some (str "cd")); Resume 0; ClickPause;
                       ClickPlay (Some (str "ef")); Resume 1]))
  = isPlaying (run freshPage
                 [ClickPlay (Some (str "cd")); Resume 0; ClickPause;
                  ClickPlay (Some (str "ef")); Resume 1]).
Proof.
  exact (proj1 (buttons_follow_isPlaying freshPage
                  [ClickPlay (Some (str "cd")); Resume 0; ClickPause;
                   ClickPlay (Some (str "ef")); Resume 1]
                  eq_refl eq_refl eq_refl)).
Defined.

End SchedulerInvariants.

Section Transport.

Import Playback Notion.

(** X10. A second click on Stop, or on Pause, right after the first one
    changes nothing at all: the state after two clicks is the state after
    one. *)
Theorem stop_and_pause_clicks_idempotent :
  forall st : State,
    step (step st ClickStop) ClickStop = step st ClickStop
    /\ step (step st ClickPause) ClickPause = step st ClickPause.
Proof.
  intro st. destruct st as [sr su ip ns i [b1 b2 b3] pe cs].
  split; unfold step, stopAudio, pauseAudio; simpl.
  - destruct b3; simpl; [reflexivity |].
    destruct sr; simpl; reflexivity.
  - destruct b2; simpl; [reflexivity |].
    destruct sr; simpl; reflexivity.
Qed.

(** X11. Pause and Stop do not cancel the loop that is parked on its
    timer: it wakes up once more, advances the index, sees that nothing is
    playing and returns without a call.  After Pause the index is one more
    than before; after Stop, which had reset it to 0, it is 1. *)
Theorem cancellation_is_deferred :
  forall (st : State) (N : nat),
    synthReady st = true ->
    pending st = [AwaitTimeout N] ->
    (calls (step (pauseAudio st) (Resume 0))
     = calls st ++ [triggerRelease; updatePlaybackStatus Paused]
     /\ pending (step (pauseAudio st) (Resume 0)) = []
     /\ isPlaying (step (pauseAudio st) (Resume 0)) = false
     /\ currentNoteIndex (step (pauseAudio st) (Resume 0))
        = (currentNoteIndex st + 1)%nat)
    /\ (calls (step (stopAudio st) (Resume 0))
        = calls st ++ [triggerRelease; updatePlaybackStatus Stopped]
        /\ pending (step (stopAudio st) (Resume 0)) = []
        /\ isPlaying (step (stopAudio st) (Resume 0)) = false
        /\ currentNoteIndex (step (stopAudio st) (Resume 0)) = 1%nat).
Proof.
  intros st N Hs Hp. destruct st as [sr su ip ns i b pe cs].
  simpl in Hs, Hp. subst sr pe.
  unfold step, pauseAudio, stopAudio, resume, loopTurn. simpl.
  rewrite !andb_false_r. simpl.
  repeat split; now rewrite <- app_assoc.
Qed.

Lemma cancellation_is_deferred_witness :
  currentNoteIndex
    (step (stopAudio (run freshPage [ClickPlay (Some (str "cdef")); Resume 0; Resume 0]))
          (Resume 0))
  = 1%nat.
Proof.
  exact (proj2 (proj2 (proj2 (proj2
           (cancellation_is_deferred
              (run freshPage [ClickPlay (Some (str "cdef")); Resume 0; Resume 0])
              4 eq_refl eq_refl))))).
Defined.

(** X12. Without a synthesizer, playing a tune whose first event is
    audible fails at once: the status says Playing, then the playback error
    is shown, nothing is playing, no loop is parked and only the play button
    is enabled. *)
Theorem play_without_synthesizer_fails :
  forall (st : State) (text : jsstring) (ev : NoteEvent) (evs : list NoteEvent),
    text <> [] ->
    text <> placeholder ->
    contextSuspended st = false ->
    synthReady st = false ->
    parseABCNotation text = ev :: evs ->
    audible ev = true ->
    calls (playAudio (Some text) st)
    = calls st ++ [updatePlaybackStatus Playing; showError PlaybackFailed]
    /\ isPlaying (playAudio (Some text) st) = false
    /\ pending (playAudio (Some text) st) = pending st
    /\ buttons (playAudio (Some text) st) = mkButtons false true true.
Proof.
  intros st text ev evs Hne Hph Hsu Hsy Hparse Haud.
  unfold playAudio.
  destruct text as [| c text]; [contradiction |].
  rewrite (eqb_neq _ _ Hph), Hsu. simpl orb. cbv iota.
  unfold playAudio_start. simpl currentNotes. rewrite Hparse.
  simpl Nat.eqb. cbv iota. unfold playNotes, loopTurn. simpl.
  unfold audible in Haud. rewrite Haud, Hsy. simpl.
  repeat split. now rewrite <- app_assoc.
Qed.

Lemma play_without_synthesizer_fails_witness :
  isPlaying (playAudio (Some (str "cz"))
               (mkState false false false [] 0 (mkButtons false true true) [] []))
  = false.
Proof.
  assert (H1 : str "cz" <> []) by discriminate.
  assert (H2 : str "cz" <> placeholder) by discriminate.
  exact (proj1 (proj2
           (play_without_synthesizer_fails
              (mkState false false false [] 0 (mkButtons false true true) [] [])
              (str "cz") (mkNote 72 (JSNumber.of_Z 1) false)
              [mkNote 0 (JSNumber.of_Z 1) true]
              H1 H2 eq_refl eq_refl eq_refl eq_refl))).
Defined.

Lemma generation_parse (notation : jsstring) :
  Generation.parseABCNotation notation = parseABCNotation notation.
Proof.
  unfold Generation.parseABCNotation, parseABCNotation.
  rewrite generation_fold.
  destruct (fold_left parseLine (JSString.split notation) []); reflexivity.
Qed.

Lemma generation_playAudio_start (text : jsstring) (st : State) :
  GenerationPlayer.playAudio_start text st = playAudio_start text st.
Proof.
  unfold GenerationPlayer.playAudio_start, playAudio_start.
  rewrite generation_parse. reflexivity.
Qed.

Lemma generation_step (st : State) (e : Event) :
  GenerationPlayer.step st e = step st e.
Proof.
  destruct e as [notation | | | k]; unfold GenerationPlayer.step, step.
  - destruct (playBtn (buttons st)); [reflexivity |].
    unfold GenerationPlayer.playAudio, playAudio.
    destruct notation as [text |]; [| reflexivity].
    destruct ((length text =? 0)%nat || JSString.eqb text placeholder);
      [reflexivity |].
    destruct (contextSuspended st); [reflexivity |].
    apply generation_playAudio_start.
  - reflexivity.
  - reflexivity.
  - destruct (nth_error (pending st) k) as [[text | N] |]; [| reflexivity | reflexivity].
    apply generation_playAudio_start.
Qed.

(** X13. The scheduler that generation.js carries ([playAudio],
    [playNotes], [pauseAudio], [stopAudio] and the listeners) behaves as the
    one of playback.js: from the same state, the same clicks and wake-ups
    lead to the same state and the same calls. *)
Theorem generation_scheduler_agrees :
  forall (st : State) (es : list Event),
    GenerationPlayer.run st es = run st es.
Proof.
  intros st es. unfold GenerationPlayer.run, run. revert st.
  induction es as [| e es IH]; intro st; simpl; [reflexivity |].
  now rewrite generation_step, IH.
Qed.

End Transport.

(* ================================================================== *)
(** * The name of a downloaded file *)
(* ================================================================== *)

Section DownloadName.

Import Download.

Lemma dashed_not_separator (c : char) :
  dashed c <> COLON /\ dashed c <> DOT.
Proof.
  unfold dashed, COLON, DOT, DASH.
  destruct (N.eqb_spec c 58) as [-> | H1]; simpl; [split; discriminate |].
  destruct (N.eqb_spec c 46) as [-> | H2]; simpl; [split; discriminate |].
  now split.
Qed.

Lemma dashed_plain (s : jsstring) : plain s = true -> map dashed s = s.
Proof.
  unfold plain. induction s as [| c s IH]; simpl; [reflexivity |].
  intro H. apply andb_prop in H as [Hc Hs]. rewrite (IH Hs).
  unfold dashed. apply negb_true_iff in Hc. now rewrite Hc.
Qed.

Lemma In_firstn_In {A : Type} (n : nat) (l : list A) (x : A) :
  In x (firstn n l) -> In x l.
Proof.
  intro H. rewrite <- (firstn_skipn n l). apply in_or_app. now left.
Qed.

Lemma fileTimestamp_drops_tail (body tail : jsstring) :
  length tail = 5%nat -> fileTimestamp (body ++ tail) = map dashed body.
Proof.
  intro H. unfold fileTimestamp.
  rewrite length_app, H, Nat.add_sub, map_app.
  rewrite <- (length_map dashed body) at 1.
  rewrite firstn_app, Nat.sub_diag, firstn_all. simpl. apply app_nil_r.
Qed.

(** X14. The time stamp in the name of a downloaded file never holds a
    colon or a dot; it is the ISO time without its last five characters,
    and for an ISO time [date T hh:mm:ss.fff Z] it reads [date T hh-mm-ss]. *)
Theorem download_name_format :
  (forall iso : jsstring,
      ~ In COLON (fileTimestamp iso) /\ ~ In DOT (fileTimestamp iso))
  /\ (forall date hh mm ss fff : jsstring,
         plain date = true -> plain hh = true -> plain mm = true ->
         plain ss = true -> length fff = 3%nat ->
         fileName (date ++ 84%N :: hh ++ COLON :: mm ++ COLON :: ss
                        ++ DOT :: fff ++ [90%N])
         = str "music_"
             ++ (date ++ 84%N :: hh ++ DASH :: mm ++ DASH :: ss)
             ++ str ".abc").
Proof.
  split.
  - intro iso. unfold fileTimestamp.
    assert (H : forall x, In x (firstn (length iso - 5) (map dashed iso)) ->
                          x <> COLON /\ x <> DOT).
    { intros x Hx. apply In_firstn_In in Hx. apply in_map_iff in Hx as [c [<- _]].
      apply dashed_not_separator. }
    split; intro Hin; apply H in Hin; destruct Hin as [H1 H2]; congruence.
  - intros date hh mm ss fff Hd Hh Hm Hs Hf. unfold fileName. f_equal. f_equal.
    replace (date ++ 84%N :: hh ++ COLON :: mm ++ COLON :: ss ++ DOT :: fff ++ [90%N])
      with ((date ++ 84%N :: hh ++ COLON :: mm ++ COLON :: ss) ++ (DOT :: fff ++ [90%N])).
    2: { rewrite <- !app_assoc. simpl. f_equal. f_equal. rewrite <- !app_assoc.
         simpl. f_equal. f_equal. rewrite <- !app_assoc. reflexivity. }
    rewrite fileTimestamp_drops_tail
      by (simpl; rewrite length_app, Hf; reflexivity).
    rewrite map_app. simpl. rewrite map_app. simpl. rewrite map_app. simpl.
    now rewrite (dashed_plain _ Hd), (dashed_plain _ Hh), (dashed_plain _ Hm),
      (dashed_plain _ Hs).
Qed.

Lemma download_name_format_witness :
  fileName (str "2026-11-02T08:50:12.345Z") = str "music_2026-11-02T08-50-12.abc".
Proof.
  exact (proj2 download_name_format
           (str "2026-11-02") (str "08") (str "50") (str "12") (str "345")
           eq_refl eq_refl eq_refl eq_refl eq_refl).
Defined.

End DownloadName.

(* ================================================================== *)
(** * generateUUID *)
(* ================================================================== *)

Section UuidShape.

Import Uuid.
Local Open Scope N_scope.






Example uuid_sample :
  generateUUID (fun k => N.of_nat (k mod 16))
  = str "01234567-89ab-4cde-b012-3456789abcde".
Proof. vm_compute. reflexivity. Qed.

End UuidShape.

(* ================================================================== *)
(** * The history of generations *)
(* ================================================================== *)

Section HistoryFacts.

Import History.

Lemma flip_flip (it : HistoryItem) : flip (flip it) = it.
Proof. destruct it as [a b c d e f g]. unfold flip. simpl. now rewrite negb_involutive. Qed.

Lemma nth_error_setNth (h : list HistoryItem) :
  forall i v it, nth_error h i = Some it -> nth_error (setNth i v h) i = Some v.
Proof.
  induction h as [| x h IH]; intros [| i] v it H; simpl in *; try discriminate.
  - reflexivity.
  - now apply (IH i v it).
Qed.

Lemma setNth_setNth (h : list HistoryItem) :
  forall i v w, setNth i v (setNth i w h) = setNth i v h.
Proof.
  induction h as [| x h IH]; intros [| i] v w; simpl; try reflexivity.
  now rewrite IH.
Qed.

Lemma setNth_same (h : list HistoryItem) :
  forall i it, nth_error h i = Some it -> setNth i it h = h.
Proof.
  induction h as [| x h IH]; intros [| i] it H; simpl in *; try discriminate.
  - now injection H as ->.
  - now rewrite (IH i it H).
Qed.

Lemma setNth_ids (h : list HistoryItem) :
  forall i it,
    nth_error h i = Some it ->
    map item_id (setNth i (flip it) h) = map item_id h.
Proof.
  induction h as [| x h IH]; intros [| i] it H; simpl in *; try discriminate.
  - now injection H as ->.
  - now rewrite (IH i it H).
Qed.

(** X16. Toggling the favourite mark of an entry twice gives back the
    stored history; one toggle flips the mark of that entry only, keeps the
    entries and their order, and leaves the shown counters in step with the
    storage; an index outside the history changes nothing. *)
Theorem toggleFavorite_involutive :
  forall (i : nat) (p : Page),
    history (toggleFavorite i (toggleFavorite i p)) = history p
    /\ map item_id (getHistory (toggleFavorite i p)) = map item_id (getHistory p)
    /\ (forall it, nth_error (getHistory p) i = Some it ->
                   getHistory (toggleFavorite i p) = setNth i (flip it) (getHistory p)
                   /\ nth_error (getHistory (toggleFavorite i p)) i = Some (flip it)
                   /\ statsInSync (toggleFavorite i p))
    /\ (nth_error (getHistory p) i = None -> toggleFavorite i p = p).
Proof.
  intros i p. unfold toggleFavorite.
  destruct (nth_error (getHistory p) i) as [it |] eqn:Hn.
  - assert (Hg : getHistory (updateStats (saveHistory (setNth i (flip it) (getHistory p)) p))
                 = setNth i (flip it) (getHistory p)) by reflexivity.
    rewrite Hg. rewrite (nth_error_setNth _ _ _ _ Hn).
    repeat split.
    + simpl. rewrite setNth_setNth, flip_flip, (setNth_same _ _ _ Hn).
      unfold getHistory in Hn |- *.
      destruct (history p) as [h |]; [reflexivity |].
      destruct i; discriminate Hn.
    + now apply setNth_ids.
    + injection H as <-. reflexivity.
    + injection H as <-. reflexivity.
    + discriminate.
  - rewrite Hn. repeat split; try reflexivity; intros; discriminate.
Qed.

Lemma toggleFavorite_involutive_witness :
  nth_error
    (getHistory
       (toggleFavorite 1
          (mkPage (Some [mkItem (str "a") [] [] JSNumber.one JSNumber.one [] false;
                         mkItem (str "b") [] [] JSNumber.one JSNumber.one [] false])
                  None 0 0)))
    1
  = Some (mkItem (str "b") [] [] JSNumber.one JSNumber.one [] true).
Proof.
  exact (proj1 (proj2
           (proj1 (proj2 (proj2
              (toggleFavorite_involutive 1
                 (mkPage (Some [mkItem (str "a") [] [] JSNumber.one JSNumber.one [] false;
                                mkItem (str "b") [] [] JSNumber.one JSNumber.one [] false])
                         None 0 0))))
              (mkItem (str "b") [] [] JSNumber.one JSNumber.one [] false) eq_refl))).
Defined.









Lemma shiftWhile_exceeded (l : list HistoryItem) : shiftWhile true l = [].
Proof. induction l as [| x l IH]; simpl; [reflexivity | exact IH]. Qed.

(** X19. [cleanupStorage] is all or nothing: under the quota it leaves the
    page as it is; over the quota it drops every non-favourite entry (the
    quota is not measured again on what the loop has removed, nothing being
    saved inside the loop) and keeps all the favourites in their order. *)
Theorem cleanupStorage_drops_all_non_favourites :
  forall (isStorageQuotaExceeded : Page -> bool) (p : Page),
    cleanupStorage isStorageQuotaExceeded p
    = if isStorageQuotaExceeded p
      then saveHistory (filter isFavorite (getHistory p)) p
      else p.
Proof.
  intros exceeded p. unfold cleanupStorage.
  destruct (exceeded p); simpl; [| reflexivity].
  now rewrite shiftWhile_exceeded.
Qed.

End HistoryFacts.

Section ImportFacts.

Import History.

Lemma eqb_eq (s u : jsstring) : JSString.eqb s u = true <-> s = u.
Proof.
  unfold JSString.eqb. destruct (list_eq_dec N.eq_dec s u); split;
    intro H; try reflexivity; try assumption; try discriminate; contradiction.
Qed.

Lemma seen_has (x : jsstring) (seen : list jsstring) :
  existsb (JSString.eqb x) seen = true <-> In x seen.
Proof.
  rewrite existsb_exists. split.
  - intros [y [Hy E]]. apply eqb_eq in E. now subst.
  - intro H. exists x. split; [exact H | now apply eqb_eq].
Qed.

Lemma uniqueById_sound (items : list HistoryItem) :
  forall seen,
    NoDup (map item_id (uniqueById seen items))
    /\ (forall it, In it (uniqueById seen items) ->
                   In it items /\ ~ In (item_id it) seen).
Proof.
  induction items as [| x items IH]; intro seen; simpl.
  - split; [constructor | intros it []].
  - destruct (existsb (JSString.eqb (item_id x)) seen) eqn:E.
    + destruct (IH seen) as [Hn Hi]. split; [exact Hn |].
      intros it Hit. destruct (Hi it Hit). split; [now right | assumption].
    + destruct (IH (item_id x :: seen)) as [Hn Hi]. split.
      * simpl. constructor; [| exact Hn].
        intro Hin. apply in_map_iff in Hin as [it [Eid Hit]].
        destruct (Hi it Hit) as [_ Hno]. apply Hno. left. now symmetry.
      * intros it [<- | Hit].
        -- split; [now left |]. intro Hin. apply seen_has in Hin. congruence.
        -- destruct (Hi it Hit) as [H1 H2]. split; [now right |].
           intro Hin. apply H2. now right.
Qed.

Lemma uniqueById_fresh (items : list HistoryItem) :
  forall seen others,
    NoDup (map item_id items) ->
    (forall it, In it items -> ~ In (item_id it) seen) ->
    exists seen',
      uniqueById seen (items ++ others) = items ++ uniqueById seen' others.
Proof.
  induction items as [| x items IH]; intros seen others Hnd Hfresh; simpl.
  - now exists seen.
  - inversion Hnd as [| a l Hx Hnd' E]; subst.
    destruct (existsb (JSString.eqb (item_id x)) seen) eqn:E.
    + exfalso. apply seen_has in E. apply (Hfresh x); [now left | exact E].
    + destruct (IH (item_id x :: seen) others Hnd') as [seen' Hs].
      * intros it Hit [Hin | Hin].
        -- apply Hx. rewrite Hin. now apply in_map.
        -- apply (Hfresh it); [now right | exact Hin].
      * exists seen'. now rewrite Hs.
Qed.

Lemma NoDup_firstn {A : Type} (n : nat) (l : list A) :
  NoDup l -> NoDup (firstn n l).
Proof.
  intro H. rewrite <- (firstn_skipn n l) in H. now apply NoDup_app_remove_r in H.
Qed.

Lemma importData_history (data : ImportedData) (p : Page)
      (imported : list HistoryItem) :
  data_history data = Some imported ->
  getHistory (snd (importData data p))
  = firstn 10 (uniqueById [] (imported ++ getHistory p)).
Proof.
  intro H. unfold importData. rewrite H.
  destruct (data_theme data) as [t |]; [| reflexivity].
  destruct (length t =? 0)%nat; reflexivity.
Qed.

(** X20. [importData] refuses data without a history array and then
    leaves the page as it is.  Otherwise it answers true and stores a
    history of at most ten entries, all of them imported or already there,
    no two with the same id; imported entries come first: when they are at
    most ten with distinct ids, the stored history starts with them. *)
Theorem importData_merges_without_duplicates :
  forall (data : ImportedData) (p : Page),
    (data_history data = None -> importData data p = (false, p))
    /\ (forall imported,
           data_history data = Some imported ->
           fst (importData data p) = true
           /\ NoDup (map item_id (getHistory (snd (importData data p))))
           /\ (length (getHistory (snd (importData data p))) <= 10)%nat
           /\ incl (getHistory (snd (importData data p))) (imported ++ getHistory p)
           /\ (NoDup (map item_id imported) ->
               (length imported <= 10)%nat ->
               firstn (length imported) (getHistory (snd (importData data p)))
               = imported)).
Proof.
  intros data p. split.
  - intro H. unfold importData. now rewrite H.
  - intros imported Hd.
    rewrite (importData_history data p imported Hd).
    assert (Hok : fst (importData data p) = true)
      by (unfold importData; now rewrite Hd).
    destruct (uniqueById_sound (imported ++ getHistory p) []) as [Hn Hi].
    split; [exact Hok |]. split.
    { rewrite <- firstn_map. now apply NoDup_firstn. }
    split; [apply firstn_le_length |]. split.
    { intros it Hit. apply In_firstn_In in Hit. now apply Hi. }
    intros Hnd Hlen.
    destruct (uniqueById_fresh imported [] (getHistory p) Hnd) as [seen' Hs].
    { intros it _ []. }
    rewrite Hs, firstn_firstn, Nat.min_l by exact Hlen.
    rewrite firstn_app, Nat.sub_diag, firstn_all. simpl. apply app_nil_r.
Qed.

Lemma importData_merges_without_duplicates_witness :
  fst (importData
         (mkData (Some [mkItem (str "a") [] [] JSNumber.one JSNumber.one [] true]) None)
         (mkPage (Some [mkItem (str "a") [] [] JSNumber.one JSNumber.one [] false;
                        mkItem (str "b") [] [] JSNumber.one JSNumber.one [] false])
                 None 2 0))
  = true.
Proof.
  exact (proj1 (proj2 (importData_merges_without_duplicates
                  (mkData (Some [mkItem (str "a") [] [] JSNumber.one JSNumber.one [] true]) None)
                  (mkPage (Some [mkItem (str "a") [] [] JSNumber.one JSNumber.one [] false;
                                 mkItem (str "b") [] [] JSNumber.one JSNumber.one [] false])
                          None 2 0))
                  _ eq_refl)).
Defined.

End ImportFacts.

(* ================================================================== *)
(** * Chord annotations *)
(* ================================================================== *)

Section Annotations.

Import Spec.

Lemma quote_stops :
  isAccidental QUOTE = false /\ isOctaveMark QUOTE = false
  /\ isDigit QUOTE = false /\ (QUOTE =? SLASH)%N = false.
Proof. repeat split. Qed.

(** A turn that starts before a double quote and is not inside an open
    annotation stops at or before that quote, whatever follows it. *)
Lemma scanStep_before_quote (p : char) (a X : jsstring) :
  (p =? QUOTE)%N = false \/ In QUOTE a ->
  Playback.scanStep p (a ++ QUOTE :: X)
  = (fst (Playback.scanStep p a), snd (Playback.scanStep p a) ++ QUOTE :: X).
Proof.
  intro Hq. destruct quote_stops as [Ha [Ho [Hd Hs]]].
  unfold Playback.scanStep.
  destruct (p =? QUOTE)%N.
  { destruct Hq as [Hq | Hq]; [discriminate |]. simpl.
    now rewrite skipToQuote_closed. }
  destruct (isBarSymbol p); [reflexivity |].
  destruct (p =? SPACE)%N; [reflexivity |].
  destruct (isDecoration p); [reflexivity |].
  destruct (isNoteLetter p).
  { rewrite (skipAccidentals_app _ _ _ Ha), (takeOctaves_app _ _ _ Ho).
    destruct (Playback.takeOctaves (Playback.skipAccidentals a)) as [marks s2].
    simpl. rewrite (parseDuration_app _ _ _ Hd Hs).
    destruct (Playback.parseDuration s2). reflexivity. }
  destruct (p =? LOWER_Z)%N; [| reflexivity].
  rewrite (parseDuration_app _ _ _ Hd Hs).
  destruct (Playback.parseDuration a). reflexivity.
Qed.

Lemma skipToQuote_first (txt X : jsstring) :
  ~ In QUOTE txt -> Playback.skipToQuote (txt ++ QUOTE :: X) = QUOTE :: X.
Proof.
  induction txt as [| c txt IH]; intro Hno; simpl.
  - reflexivity.
  - destruct (N.eqb_spec c QUOTE) as [-> | _].
    + exfalso. apply Hno. now left.
    + apply IH. intro H. apply Hno. now right.
Qed.

Lemma skipToQuote_none (txt : jsstring) :
  ~ In QUOTE txt -> Playback.skipToQuote txt = [].
Proof.
  induction txt as [| c txt IH]; intro Hno; simpl; [reflexivity |].
  destruct (N.eqb_spec c QUOTE) as [-> | _].
  - exfalso. apply Hno. now left.
  - apply IH. intro H. apply Hno. now right.
Qed.

(** The scanning loop, when it dispatches on a double quote, goes on from
    the same place with the same events for any two contents that close at
    the same point. *)
Lemma scanLoop_annotation (n : nat) :
  forall (pre S S' : jsstring) (notes : list NoteEvent) (fuel fuel1 fuel2 len : nat),
    (length pre <= n)%nat ->
    List.tl (Playback.skipToQuote S) = List.tl (Playback.skipToQuote S') ->
    (length (pre ++ QUOTE :: S) <= len)%nat ->
    In (len - length (QUOTE :: S))%nat (loopIndices fuel len (pre ++ QUOTE :: S)) ->
    (length (pre ++ QUOTE :: S) <= fuel1)%nat ->
    (length (pre ++ QUOTE :: S') <= fuel2)%nat ->
    Playback.scanLoop fuel1 (pre ++ QUOTE :: S) notes
    = Playback.scanLoop fuel2 (pre ++ QUOTE :: S') notes.
Proof.
  induction n as [| n IH];
    intros pre S S' notes fuel fuel1 fuel2 len Hn HS Hlen Hin Hf1 Hf2.
  - destruct pre as [| p a]; [| simpl in Hn; lia].
    simpl in *.
    destruct fuel1 as [| fuel1]; [lia |]. destruct fuel2 as [| fuel2]; [lia |].
    cbn [Playback.scanLoop].
    change (Playback.scanStep QUOTE S)
      with (@None NoteEvent, List.tl (Playback.skipToQuote S)).
    change (Playback.scanStep QUOTE S')
      with (@None NoteEvent, List.tl (Playback.skipToQuote S')).
    cbv beta iota. rewrite <- HS.
    pose proof (suffix_length _ _ (suffix_tl (Playback.skipToQuote S))) as H1.
    pose proof (suffix_length _ _ (skipToQuote_suffix S)) as H2.
    pose proof (suffix_length _ _ (suffix_tl (Playback.skipToQuote S'))) as H3.
    pose proof (suffix_length _ _ (skipToQuote_suffix S')) as H4.
    apply scanLoop_enough; [lia |]. rewrite HS. lia.
  - destruct pre as [| p a].
    { apply (IH [] S S' notes fuel fuel1 fuel2 len); simpl; auto; lia. }
    simpl in Hn.
    destruct fuel as [| fuel]; [destruct Hin |].
    destruct fuel1 as [| fuel1]; [simpl in Hf1; lia |].
    destruct fuel2 as [| fuel2]; [simpl in Hf2; lia |].
    cbn [app loopIndices] in Hin. rewrite length_app in Hlen. simpl in Hlen.
    destruct Hin as [Hin | Hin].
    { simpl in Hin. rewrite length_app in Hin. simpl in Hin. lia. }
    assert (Hq : ((p =? QUOTE)%N = false \/ In QUOTE a)
                 \/ ((p =? QUOTE)%N = true /\ ~ In QUOTE a)).
    { destruct (p =? QUOTE)%N; [| now left; left].
      destruct (in_dec N.eq_dec QUOTE a); [left; now right | right; now split]. }
    destruct Hq as [Hq | [Hq Hno]].
    + cbn [app Playback.scanLoop].
      rewrite (scanStep_before_quote p a S' Hq).
      rewrite (scanStep_before_quote p a S Hq) in Hin |- *.
      pose proof (scanStep_length p a) as Hs.
      destruct (Playback.scanStep p a) as [ev a']. simpl in Hs, Hin |- *.
      apply (IH a' S S' (push notes ev) fuel fuel1 fuel2 len);
        try assumption; rewrite ?length_app in *; simpl in *; lia.
    + exfalso. apply loopIndices_lower in Hin.
      unfold Playback.scanStep in Hin. rewrite Hq in Hin. simpl in Hin.
      rewrite (skipToQuote_first a S Hno) in Hin. simpl in Hin. lia.
Qed.

Lemma isHeader_before_quote (pre S S' : jsstring) :
  isHeader (pre ++ QUOTE :: S) = isHeader (pre ++ QUOTE :: S').
Proof.
  destruct pre as [| p [| q pre]]; simpl; try reflexivity.
  destruct S, S'; reflexivity.
Qed.

Lemma trimIsEmpty_with_quote (pre S : jsstring) :
  JSString.trimIsEmpty (pre ++ QUOTE :: S) = false.
Proof.
  unfold JSString.trimIsEmpty. rewrite forallb_app. simpl. apply andb_false_r.
Qed.

(** X21. What a chord annotation holds never matters.  In a line where
    the scanner dispatches on an opening double quote, the text up to the
    closing quote can be replaced by any other text without a double quote,
    and an annotation that is not closed can be cut short, without changing
    the result of the parse. *)
Theorem annotation_text_is_ignored :
  forall (before after : list jsstring) (pre txt txt' post : jsstring),
    ~ In QUOTE txt -> ~ In QUOTE txt' ->
    ~ In JSString.LF pre -> ~ In JSString.LF txt -> ~ In JSString.LF txt' ->
    ~ In JSString.LF post ->
    (dispatchesAt (pre ++ QUOTE :: txt ++ QUOTE :: post) (length pre) ->
     Playback.parseABCNotation
       (JSString.join (before ++ (pre ++ QUOTE :: txt ++ QUOTE :: post) :: after))
     = Playback.parseABCNotation
         (JSString.join (before ++ (pre ++ QUOTE :: txt' ++ QUOTE :: post) :: after)))
    /\ (dispatchesAt (pre ++ QUOTE :: txt) (length pre) ->
        Playback.parseABCNotation
          (JSString.join (before ++ (pre ++ QUOTE :: txt) :: after))
        = Playback.parseABCNotation
            (JSString.join (before ++ (pre ++ [QUOTE]) :: after))).
Proof.
  intros before after pre txt txt' post Hq Hq' Hpre Htxt Htxt' Hpost.
  assert (HQ : QUOTE <> JSString.LF) by discriminate.
  assert (Hline : forall S S',
             ~ In JSString.LF S -> ~ In JSString.LF S' ->
             List.tl (Playback.skipToQuote S) = List.tl (Playback.skipToQuote S') ->
             dispatchesAt (pre ++ QUOTE :: S) (length pre) ->
             Playback.parseABCNotation
               (JSString.join (before ++ (pre ++ QUOTE :: S) :: after))
             = Playback.parseABCNotation
                 (JSString.join (before ++ (pre ++ QUOTE :: S') :: after))).
  { intros S S' HS HS' Etl Hd.
    assert (Hl : forall T, ~ In JSString.LF T -> ~ In JSString.LF (pre ++ QUOTE :: T)).
    { intros T HT H. apply in_app_or in H as [H | [H | H]]; auto. }
    unfold Playback.parseABCNotation.
    rewrite !split_join by (destruct before; discriminate).
    rewrite !flat_map_app. simpl flat_map.
    rewrite (split_one_line _ (Hl S HS)), (split_one_line _ (Hl S' HS')). simpl app.
    rewrite (fold_parseLine_markers _ _ (pre ++ QUOTE :: S') (pre ++ QUOTE :: S));
      [reflexivity |].
    intro notes. unfold Playback.parseLine.
    rewrite (isHeader_before_quote pre S S'), !trimIsEmpty_with_quote.
    destruct (isHeader (pre ++ QUOTE :: S')); [reflexivity |].
    unfold dispatchesAt in Hd.
    apply (scanLoop_annotation (length pre) pre S S' notes
             (length (pre ++ QUOTE :: S)) _ _ (length (pre ++ QUOTE :: S)));
      auto.
    replace (length (pre ++ QUOTE :: S) - length (QUOTE :: S))%nat with (length pre)
      by (rewrite length_app; lia).
    exact Hd. }
  split.
  - apply Hline.
    + intro H. apply in_app_or in H as [H | [H | H]]; auto.
    + intro H. apply in_app_or in H as [H | [H | H]]; auto.
    + now rewrite !skipToQuote_first.
  - intro Hd.
    apply (Hline txt [] Htxt (fun H => H)); [| exact Hd].
    now rewrite (skipToQuote_none txt Hq).
Qed.

Lemma annotation_text_is_ignored_witness :
  Playback.parseABCNotation
    (JSString.join ([str "K:G"] ++ (str "c2 " ++ QUOTE :: str "Gmaj7" ++ QUOTE :: str "de")
                                :: [str "f"]))
  = Playback.parseABCNotation
      (JSString.join ([str "K:G"] ++ (str "c2 " ++ QUOTE :: str "" ++ QUOTE :: str "de")
                                  :: [str "f"])).
Proof.
  apply (proj1 (annotation_text_is_ignored
                  [str "K:G"] [str "f"] (str "c2 ") (str "Gmaj7") (str "") (str "de")
                  ltac:(simpl; intuition discriminate) ltac:(simpl; tauto)
                  ltac:(simpl; intuition discriminate)
                  ltac:(simpl; intuition discriminate) ltac:(simpl; tauto)
                  ltac:(simpl; intuition discriminate))).
  vm_compute. right. right. left. reflexivity.
Defined.

End Annotations.
